(** * Row codec and native type-binding layer of the SQL engine (hybridse / OpenMLDB)

    Shallow embedding of [src/udf/literal_traits.h] (the compile-time traits
    that bind native C++ types to SQL type nodes), of the row codec and of the
    RPC slice-chain codec declared in [src/sdk/sql_rpc_row_codec.h].  *)

From Stdlib Require Import ZArith List String Ascii Bool Lia Arith.
Import ListNotations.
Open Scope string_scope.
Set Warnings "-register-all".

(* ------------------------------------------------------------------------ *)
(** ** node::DataType and node::TypeNode *)

Inductive DataType :=
| kBool | kInt16 | kInt32 | kInt64 | kFloat | kDouble
| kTimestamp | kDate | kVarchar | kList | kTuple | kOpaque | kRow.

(** [hybridse::type::Type], the column type enum of a codec schema. *)
Inductive CodecType :=
| tInt16 | tInt32 | tInt64 | tFloat | tDouble | tTimestamp | tDate | tVarchar.

Record ColumnDef := { col_name : string; col_type : CodecType }.

Definition CodecSchema := list ColumnDef.

(** A type node.  [generics] are the element types of a container type; a
    C++ [nullptr] generic is [None].  [generics_nullable] is the per-slot
    nullability vector [generics_nullable_]. *)
Inductive TypeNode :=
| TypeNodeMk (base : DataType) (generics : list (option TypeNode))
             (generics_nullable : list bool)
| OpaqueTypeNode (bytes : nat)
| RowTypeNode (schemas : list CodecSchema).

(** Modelled from the spec: [NodeManager::MakeTypeNode] (node/node_manager.h,
    not part of this file set).  A node of base type [base] whose generic
    slots are [gs], with one nullability flag per generic slot, initially
    not nullable. *)
Definition MakeTypeNode (base : DataType) (gs : list (option TypeNode)) : TypeNode :=
  TypeNodeMk base gs (map (fun _ => false) gs).

(** [std::vector<bool>::operator[]] assignment (in range at every use). *)
Fixpoint vec_set {A} (l : list A) (i : nat) (v : A) : list A :=
  match l, i with
  | [], _ => []
  | _ :: tl, O => v :: tl
  | x :: tl, S j => x :: vec_set tl j v
  end.

Definition set_generics_nullable (n : TypeNode) (i : nat) (v : bool) : TypeNode :=
  match n with
  | TypeNodeMk b gs fl => TypeNodeMk b gs (vec_set fl i v)
  | other => other
  end.

(* ------------------------------------------------------------------------ *)
(** ** The native (literal) types that [DataTypeTrait] is specialised for *)

Inductive Literal :=
| LAnyArg
| LBool | LInt16 | LInt32 | LInt64 | LFloat | LDouble
| LTimestamp | LDate | LStringRef
| LListRef (elem : Literal)
| LOpaque (T : CType)                 (* [Opaque<T>] *)
| LNullable (t : Literal)
| LTuple (ts : list Literal)
| LLiteralTypedRow (ts : list Literal)

(** The C++ types that appear as a [CCallArgType], or as the [T] of an
    [Opaque<T>]: the fundamental types, the codec structs, any other class
    type (told apart by [id], of size [sizeof_T]) and pointers. *)
with CType :=
| CBool | CInt16 | CInt32 | CInt64 | CFloat | CDouble
| CTimestamp | CDate | CStringRef
| CListRef (elem : Literal)
| CStruct (id : nat) (sizeof_T : nat)
| CPtr (pointee : CType).

(** [sizeof(T)] on an LP64 target: [codec::Timestamp] holds an [int64_t
    ts_], [codec::Date] an [int32_t date_], [codec::StringRef] a [uint32_t]
    size and a [const char*], [codec::ListRef<V>] one [int8_t*]. *)
Definition sizeof_ctype (c : CType) : nat :=
  match c with
  | CBool => 1
  | CInt16 => 2
  | CInt32 | CFloat | CDate => 4
  | CInt64 | CDouble | CTimestamp => 8
  | CStringRef => 16
  | CListRef _ => 8
  | CStruct _ n => n
  | CPtr _ => 8
  end.

(** Induction over literals, with the nested lists of [LTuple] and
    [LLiteralTypedRow]. *)
Section LiteralInd.
Variable P : Literal -> Prop.
Hypothesis HAny : P LAnyArg.
Hypothesis HBool : P LBool.
Hypothesis HI16 : P LInt16.
Hypothesis HI32 : P LInt32.
Hypothesis HI64 : P LInt64.
Hypothesis HFloat : P LFloat.
Hypothesis HDouble : P LDouble.
Hypothesis HTs : P LTimestamp.
Hypothesis HDate : P LDate.
Hypothesis HStr : P LStringRef.
Hypothesis HList : forall t, P t -> P (LListRef t).
Hypothesis HOpaque : forall T, P (LOpaque T).
Hypothesis HNull : forall t, P t -> P (LNullable t).
Hypothesis HTuple : forall ts, Forall P ts -> P (LTuple ts).
Hypothesis HRow : forall ts, Forall P ts -> P (LLiteralTypedRow ts).

Fixpoint Literal_ind' (t : Literal) : P t :=
  match t with
  | LAnyArg => HAny | LBool => HBool | LInt16 => HI16 | LInt32 => HI32
  | LInt64 => HI64 | LFloat => HFloat | LDouble => HDouble
  | LTimestamp => HTs | LDate => HDate | LStringRef => HStr
  | LListRef u => HList u (Literal_ind' u)
  | LOpaque T => HOpaque T
  | LNullable u => HNull u (Literal_ind' u)
  | LTuple ts =>
      HTuple ts ((fix go (l : list Literal) : Forall P l :=
                    match l with
                    | [] => Forall_nil P
                    | x :: r => Forall_cons x (Literal_ind' x) (go r)
                    end) ts)
  | LLiteralTypedRow ts =>
      HRow ts ((fix go (l : list Literal) : Forall P l :=
                  match l with
                  | [] => Forall_nil P
                  | x :: r => Forall_cons x (Literal_ind' x) (go r)
                  end) ts)
  end.
End LiteralInd.

(* ------------------------------------------------------------------------ *)
(** ** [Nullable<T>] *)

Record Nullable (T : Type) := { data_ : T; is_null_ : bool }.
Arguments data_ {T} _.
Arguments is_null_ {T} _.
Arguments Build_Nullable {T} _ _.

Definition value {T} (x : Nullable T) : T := data_ x.
Definition is_null {T} (x : Nullable T) : bool := is_null_ x.

(** [Nullable(std::nullptr_t) : data_(0), is_null_(true)]; [zero] is [T(0)]. *)
Definition Nullable_nullptr {T} (zero : T) : Nullable T := Build_Nullable zero true.
(** [Nullable(const T& t) : data_(t), is_null_(false)] *)
Definition Nullable_of {T} (t : T) : Nullable T := Build_Nullable t false.
(** [Nullable() : is_null_(false)]; [data_] is default-initialised, to the
    unspecified value [d]. *)
Definition Nullable_default {T} (d : T) : Nullable T := Build_Nullable d false.

(** [codec::StringRef]: a size and a character buffer. *)
Record StringRef := { size_ : nat; sdata_ : string }.

(** [StringRef(const char* str)]: size is [strlen(str)]. *)
Definition StringRef_of_cstr (s : string) : StringRef :=
  {| size_ := String.length s; sdata_ := s |}.

(** The [Nullable<StringRef>] specialisation. *)
Definition Nullable_StringRef_nullptr : Nullable StringRef :=
  Build_Nullable (StringRef_of_cstr "") true.
Definition Nullable_StringRef_of (t : StringRef) : Nullable StringRef :=
  Build_Nullable t false.
Definition Nullable_StringRef_default (d : StringRef) : Nullable StringRef :=
  Build_Nullable d false.

(** [operator==(const Nullable<T>&, const Nullable<T>&)], over the
    [operator==] of [T]. *)
Definition nullable_eqb {T} (eqT : T -> T -> bool) (x y : Nullable T) : bool :=
  if is_null x then is_null y
  else negb (is_null y) && eqT (value x) (value y).

(** [IsNullableTrait<T>::value] *)
Definition IsNullableTrait (t : Literal) : bool :=
  match t with LNullable _ => true | _ => false end.

(* ------------------------------------------------------------------------ *)
(** ** [DataTypeTrait<T>] *)

(** The loop of [DataTypeTrait<Tuple<T...>>::to_string] and
    [LiteralToArgTypesSignature]: each name, followed by [sep] when
    [idx < sizeof...(T) - 1]. *)
Fixpoint join_loop (sep : string) (total idx : nat) (names : list string) : string :=
  match names with
  | [] => ""
  | name :: rest =>
      name ++ (if Nat.ltb idx (total - 1) then sep else "")
           ++ join_loop sep total (S idx) rest
  end.

Definition join_names (sep : string) (names : list string) : string :=
  join_loop sep (List.length names) 0 names.

(** [std::to_string] on a [size_t]. *)
Fixpoint digits_of (fuel n : nat) (acc : string) : string :=
  match fuel with
  | O => acc
  | S f =>
      let d := String (Ascii.ascii_of_nat (48 + n mod 10)) acc in
      if Nat.ltb n 10 then d else digits_of f (n / 10) d
  end.

Definition nat_to_string (n : nat) : string := digits_of (S n) n "".

Fixpoint to_string (t : Literal) : string :=
  match t with
  | LAnyArg => "?"
  | LBool => "bool"
  | LInt16 => "int16"
  | LInt32 => "int32"
  | LInt64 => "int64"
  | LFloat => "float"
  | LDouble => "double"
  | LTimestamp => "timestamp"
  | LDate => "date"
  | LStringRef => "string"
  | LListRef u => "list_" ++ to_string u
  | LOpaque T => "opaque<" ++ nat_to_string (sizeof_ctype T) ++ ">"
  | LNullable u => to_string u
  | LTuple ts => "tuple_" ++ join_names "_" (map to_string ts)
  | LLiteralTypedRow _ => "row"
  end.

(** [to_type_enum]; [None] where the specialisation has no such member. *)
Fixpoint to_type_enum (t : Literal) : option DataType :=
  match t with
  | LAnyArg => None
  | LBool => Some kBool
  | LInt16 => Some kInt16
  | LInt32 => Some kInt32
  | LInt64 => Some kInt64
  | LFloat => Some kFloat
  | LDouble => Some kDouble
  | LTimestamp => Some kTimestamp
  | LDate => Some kDate
  | LStringRef => Some kVarchar
  | LListRef _ => Some kList
  | LOpaque _ => Some kOpaque
  | LNullable u => to_type_enum u
  | LTuple _ => Some kTuple
  | LLiteralTypedRow _ => Some kRow
  end.

(** [codec_type_enum]; [None] where the specialisation has no such member. *)
Definition codec_type_enum (t : Literal) : option CodecType :=
  match t with
  | LInt16 => Some tInt16
  | LInt32 => Some tInt32
  | LInt64 => Some tInt64
  | LFloat => Some tFloat
  | LDouble => Some tDouble
  | LTimestamp => Some tTimestamp
  | LDate => Some tDate
  | LStringRef => Some tVarchar
  | _ => None
  end.

(** [MakeLiteralSchema<LiteralArgTypes...>()]: columns [col_0], [col_1], ...;
    [None] when some argument has no [codec_type_enum] (the template does
    not instantiate). *)
Fixpoint make_literal_schema_from (i : nat) (ts : list Literal) : option CodecSchema :=
  match ts with
  | [] => Some []
  | t :: rest =>
      match codec_type_enum t, make_literal_schema_from (S i) rest with
      | Some ct, Some cols =>
          Some ({| col_name := "col_" ++ nat_to_string i; col_type := ct |} :: cols)
      | _, _ => None
      end
  end.

Definition MakeLiteralSchema (ts : list Literal) : option CodecSchema :=
  make_literal_schema_from 0 ts.

(** [to_type_node]; [None] is the [nullptr] of [DataTypeTrait<AnyArg>]. *)
Fixpoint to_type_node (t : Literal) : option TypeNode :=
  match t with
  | LAnyArg => None
  | LBool => Some (MakeTypeNode kBool [])
  | LInt16 => Some (MakeTypeNode kInt16 [])
  | LInt32 => Some (MakeTypeNode kInt32 [])
  | LInt64 => Some (MakeTypeNode kInt64 [])
  | LFloat => Some (MakeTypeNode kFloat [])
  | LDouble => Some (MakeTypeNode kDouble [])
  | LTimestamp => Some (MakeTypeNode kTimestamp [])
  | LDate => Some (MakeTypeNode kDate [])
  | LStringRef => Some (MakeTypeNode kVarchar [])
  | LListRef u =>
      let list_type := MakeTypeNode kList [to_type_node u] in
      Some (set_generics_nullable list_type 0 (IsNullableTrait u))
  | LOpaque T => Some (OpaqueTypeNode (sizeof_ctype T))
  | LNullable u => to_type_node u
  | LTuple ts =>
      Some (TypeNodeMk kTuple (map to_type_node ts) (map IsNullableTrait ts))
  | LLiteralTypedRow ts =>
      match MakeLiteralSchema ts with
      | Some s => Some (RowTypeNode [s])
      | None => None
      end
  end.

(** Whether the C++ templates for [t] instantiate: a [LiteralTypedRow]
    needs a [codec_type_enum] for each of its arguments. *)
Fixpoint instantiable (t : Literal) : bool :=
  match t with
  | LListRef u | LNullable u => instantiable u
  | LTuple ts => forallb instantiable ts
  | LLiteralTypedRow ts => forallb (fun u => if codec_type_enum u then true else false) ts
  | _ => true
  end.

(** [LiteralToArgTypesSignature<LiteralArgTypes...>()] *)
Definition LiteralToArgTypesSignature (ts : list Literal) : string :=
  join_names ", " (map to_string ts).

(** Values that [minimum_value], [maximum_value] and [zero_value] return.
    Integers and floating-point numbers are held by their exact value: every
    such constant of [DataTypeTrait] is an integer ([FLT_MAX] and [DBL_MAX]
    included).  [codec::Timestamp] and [codec::Date] are held by their
    [ts_] and [date_] fields. *)
Inductive LitVal :=
| VBool (b : bool)
| VNum (z : Z)
| VTimestamp (ts : Z)
| VDate (date : Z)
| VString (s : StringRef).

(** [std::numeric_limits<...>::max()]; [lowest()] of a signed integer type
    is [-max() - 1], of a floating type [-max()]. *)
Definition INT16_MAX : Z := (2 ^ 15 - 1)%Z.
Definition INT32_MAX : Z := (2 ^ 31 - 1)%Z.
Definition INT64_MAX : Z := (2 ^ 63 - 1)%Z.
(** [(2 - 2^-23) * 2^127] *)
Definition FLT_MAX : Z := ((2 ^ 24 - 1) * 2 ^ 104)%Z.
(** [(2 - 2^-52) * 2^1023] *)
Definition DBL_MAX : Z := ((2 ^ 53 - 1) * 2 ^ 971)%Z.

(** [DataTypeTrait<T>::minimum_value()]; [None] where the specialisation
    defines none. *)
Definition minimum_value (t : Literal) : option LitVal :=
  match t with
  | LInt16 => Some (VNum (- INT16_MAX - 1))
  | LInt32 => Some (VNum (- INT32_MAX - 1))
  | LInt64 => Some (VNum (- INT64_MAX - 1))
  | LFloat => Some (VNum (- FLT_MAX))
  | LDouble => Some (VNum (- DBL_MAX))
  | LTimestamp => Some (VTimestamp 0)
  | LDate => Some (VDate 0)
  | LStringRef => Some (VString (StringRef_of_cstr ""))
  | _ => None
  end.

(** [DataTypeTrait<T>::maximum_value()] *)
Definition maximum_value (t : Literal) : option LitVal :=
  match t with
  | LInt16 => Some (VNum INT16_MAX)
  | LInt32 => Some (VNum INT32_MAX)
  | LInt64 => Some (VNum INT64_MAX)
  | LFloat => Some (VNum FLT_MAX)
  | LDouble => Some (VNum DBL_MAX)
  | LTimestamp => Some (VTimestamp INT64_MAX)
  | LDate => Some (VDate INT32_MAX)
  | _ => None
  end.

(** [DataTypeTrait<T>::zero_value()] *)
Definition zero_value (t : Literal) : option LitVal :=
  match t with
  | LBool => Some (VBool false)
  | LInt16 | LInt32 | LInt64 | LFloat | LDouble => Some (VNum 0)
  | LTimestamp => Some (VTimestamp 0)
  | LDate => Some (VDate 0)
  | LStringRef => Some (VString (StringRef_of_cstr ""))
  | _ => None
  end.

(* ------------------------------------------------------------------------ *)
(** ** Calling convention: [CCallArgType] and [CCallDataTypeTrait] *)

(** [DataTypeTrait<T>::CCallArgType]; [None] where the specialisation
    declares none. *)
Definition CCallArgType (t : Literal) : option CType :=
  match t with
  | LBool => Some CBool
  | LInt16 => Some CInt16
  | LInt32 => Some CInt32
  | LInt64 => Some CInt64
  | LFloat => Some CFloat
  | LDouble => Some CDouble
  | LTimestamp => Some (CPtr CTimestamp)
  | LDate => Some (CPtr CDate)
  | LStringRef => Some (CPtr CStringRef)
  | LListRef u => Some (CPtr (CListRef u))
  | LOpaque T => Some (CPtr T)
  | LAnyArg | LNullable _ | LTuple _ | LLiteralTypedRow _ => None
  end.

(** [CCallDataTypeTrait<T>::LiteralTag]; [None] where it is a type that
    has no [DataTypeTrait] (the primary template on a class type). *)
Definition LiteralTag (c : CType) : option Literal :=
  match c with
  | CBool => Some LBool
  | CInt16 => Some LInt16
  | CInt32 => Some LInt32
  | CInt64 => Some LInt64
  | CFloat => Some LFloat
  | CDouble => Some LDouble
  | CTimestamp | CDate | CStringRef | CListRef _ => Some LAnyArg
  | CStruct _ _ => None
  | CPtr CTimestamp => Some LTimestamp
  | CPtr CDate => Some LDate
  | CPtr CStringRef => Some LStringRef
  | CPtr (CListRef v) => Some (LListRef v)
  | CPtr v => Some (LOpaque v)
  end.

(** How an argument of literal type [t] is passed. *)
Inductive PassMode := ByValue | ByPointer.

Definition pass_mode (t : Literal) : option PassMode :=
  match CCallArgType t with
  | Some (CPtr _) => Some ByPointer
  | Some _ => Some ByValue
  | None => None
  end.

(* ------------------------------------------------------------------------ *)
(** ** Signatures and the registry *)

(** A type node with its nullability erased: every per-slot flag cleared. *)
Fixpoint erase_nullable (n : TypeNode) : TypeNode :=
  match n with
  | TypeNodeMk b gs fl =>
      TypeNodeMk b (map (option_map erase_nullable) gs) (map (fun _ => false) fl)
  | other => other
  end.

(** The resolved descriptor sequence of a binding's argument list. *)
Definition resolve_args (ts : list Literal) : list (option TypeNode) :=
  map to_type_node ts.

Definition erased_args (ts : list Literal) : list (option TypeNode) :=
  map (option_map erase_nullable) (resolve_args ts).

Inductive RegistryError := DuplicateSignature | UnsupportedBinding.

(** Modelled from the spec: the function registry (udf/udf_registry.h, not
    part of this file set).  Bindings are keyed by their argument-type
    signature [LiteralToArgTypesSignature]; registering a signature already
    present fails with [DuplicateSignature]; a shape whose templates do not
    instantiate fails with [UnsupportedBinding]. *)
Definition Registry (F : Type) := list (string * F).

Definition registry_lookup {F} (reg : Registry F) (ts : list Literal) : option F :=
  match find (fun kv => String.eqb (fst kv) (LiteralToArgTypesSignature ts)) reg with
  | Some (_, f) => Some f
  | None => None
  end.

Definition registry_register {F} (reg : Registry F) (ts : list Literal) (f : F)
  : Registry F + RegistryError :=
  if negb (forallb instantiable ts) then inr UnsupportedBinding
  else match registry_lookup reg ts with
       | Some _ => inr DuplicateSignature
       | None => inl ((LiteralToArgTypesSignature ts, f) :: reg)
       end.

(** The name a resolved type node prints as: the [to_string] of the
    literal types, read off the node. *)
Fixpoint node_string_n (n : TypeNode) : string :=
  match n with
  | TypeNodeMk b gs _ =>
      match b with
      | kBool => "bool" | kInt16 => "int16" | kInt32 => "int32"
      | kInt64 => "int64" | kFloat => "float" | kDouble => "double"
      | kTimestamp => "timestamp" | kDate => "date" | kVarchar => "string"
      | kList =>
          "list_" ++ match gs with
                     | [Some g] => node_string_n g
                     | [None] => "?"
                     | _ => ""
                     end
      | kTuple =>
          "tuple_" ++ join_names "_"
            (map (fun g => match g with Some x => node_string_n x | None => "?" end) gs)
      | kOpaque | kRow => ""
      end
  | OpaqueTypeNode k => "opaque<" ++ nat_to_string k ++ ">"
  | RowTypeNode _ => "row"
  end.

Definition node_string (o : option TypeNode) : string :=
  match o with Some n => node_string_n n | None => "?" end.

(* ------------------------------------------------------------------------ *)
(** ** Single-slice row codec *)

(** Modelled from the spec: the row codec (codec/fe_row_codec.h, not part of
    this file set), following the layout of section 4.2 of the spec.  A
    slice is a list of bytes, each byte an 8-bit [Z]; multi-byte integers are
    little-endian. *)

Open Scope Z_scope.
Open Scope list_scope.

Definition byte_ok (b : Z) : bool := (0 <=? b) && (b <? 256).

(** [w] little-endian bytes of [v]. *)
Fixpoint le_encode (w : nat) (v : Z) : list Z :=
  match w with
  | O => []
  | S k => v mod 256 :: le_encode k (v / 256)
  end.

Definition le_decode (bs : list Z) : Z :=
  fold_right (fun b acc => b + 256 * acc) 0 bs.

(** Two's complement of a signed [w]-byte integer, and back. *)
Definition to_unsigned (w : nat) (v : Z) : Z := v mod 2 ^ (8 * Z.of_nat w).

Definition of_unsigned (w : nat) (u : Z) : Z :=
  if u <? 2 ^ (8 * Z.of_nat w - 1) then u else u - 2 ^ (8 * Z.of_nat w).

Definition signed_ok (w : nat) (v : Z) : bool :=
  (- 2 ^ (8 * Z.of_nat w - 1) <=? v) && (v <? 2 ^ (8 * Z.of_nat w - 1)).

Definition unsigned_ok (w : nat) (v : Z) : bool :=
  (0 <=? v) && (v <? 2 ^ (8 * Z.of_nat w)).

(** [sub s pos len]: the [len] bytes of [s] from [pos]. *)
Definition sub (s : list Z) (pos len : nat) : list Z := firstn len (skipn pos s).

Definition zeros (n : nat) : list Z := repeat 0 n.

(** Column types of a schema, as the codec sees them.  A [Tuple] column
    has its element types and one nullability flag per element. *)
Inductive ColKind :=
| KBool | KInt16 | KInt32 | KInt64 | KFloat | KDouble | KTimestamp | KDate
| KVarchar | KOpaque (n : nat) | KList | KRow
| KTuple (elems : list ColKind) (elems_nullable : list bool).

Record Column := { cname : string; ctype : ColKind; cnullable : bool }.

Definition Schema := list Column.

(** A field value: an integer ([Int16] .. [Int64], [Timestamp] in
    milliseconds, packed [Date]), the IEEE-754 bit pattern of a [Float] or a
    [Double], a byte span ([StringRef], the payload of a [List] or a nested
    [Row], the blob of an [Opaque<N>]), or the elements of a [Tuple], each
    possibly null. *)
Inductive Datum :=
| DBool (b : bool) | DInt (v : Z) | DBits (v : Z) | DBytes (bs : list Z)
| DTuple (elems : list (Nullable Datum)).

Definition Value := Nullable Datum.

Fixpoint list_eqb {A} (eqA : A -> A -> bool) (l1 l2 : list A) : bool :=
  match l1, l2 with
  | [], [] => true
  | a :: r1, b :: r2 => eqA a b && list_eqb eqA r1 r2
  | _, _ => false
  end.

(** Equality of field values; tuples compare element by element with the
    [operator==] of [Nullable], as [Tuple]'s [operator==] does. *)
Fixpoint datum_eqb (a b : Datum) : bool :=
  match a, b with
  | DBool x, DBool y => Bool.eqb x y
  | DInt x, DInt y => Z.eqb x y
  | DBits x, DBits y => Z.eqb x y
  | DBytes x, DBytes y => list_eqb Z.eqb x y
  | DTuple xs, DTuple ys => list_eqb (nullable_eqb datum_eqb) xs ys
  | _, _ => false
  end.

Inductive CodecError :=
| InvalidType | SchemaMismatch | Overflow | Truncated | SliceCountMismatch | TypeMismatch.

Definition bitmap_bytes (n : nat) : nat := ((n + 7) / 8)%nat.

(** The summed widths of fixed-width types; [None] if one is variable. *)
Definition widths_sum (ww : ColKind -> option nat) :=
  fix widths_sum (ks : list ColKind) : option nat :=
  match ks with
  | [] => Some 0%nat
  | k :: ks' =>
      match ww k, widths_sum ks' with
      | Some w, Some r => Some (w + r)%nat
      | _, _ => None
      end
  end.

(** [WireWidth]: [Some w] for a fixed-width type, [None] for [Variable].  A
    tuple is fixed-width iff every element is; it then takes its own null
    bitmap and its elements' widths. *)
Fixpoint wire_width (k : ColKind) : option nat :=
  match k with
  | KBool => Some 1%nat
  | KInt16 => Some 2%nat
  | KInt32 | KFloat | KDate => Some 4%nat
  | KInt64 | KDouble | KTimestamp => Some 8%nat
  | KOpaque n => Some n
  | KVarchar | KList | KRow => None
  | KTuple ks _ =>
      match widths_sum wire_width ks with
      | Some w => Some (bitmap_bytes (List.length ks) + w)%nat
      | None => None
      end
  end.

(** Width of a field's slot in the fixed-field area: the value itself, or
    a 4-byte offset and a 4-byte length. *)
Definition slot_width (k : ColKind) : nat :=
  match wire_width k with Some w => w | None => 8%nat end.

Definition fixed_len (ks : list ColKind) : nat :=
  fold_right (fun k acc => (slot_width k + acc)%nat) 0%nat ks.

Definition VERSION : Z := 1.

(** Header: 4-byte total length and the version tag. *)
Definition HEADER_SIZE : nat := 5.

(** Whether values [xs] fit the types [ks] with nullability flags [ns]:
    null only where nullable; the data of a null value is not looked at. *)
Definition elems_ok (ok : ColKind -> Datum -> bool) :=
  fix elems_ok (ks : list ColKind) (ns : list bool) (xs : list Value) : bool :=
  match ks, xs with
  | [], [] => true
  | k :: ks', x :: xs' =>
      (if is_null x then hd false ns else ok k (value x)) && elems_ok ks' (tl ns) xs'
  | _, _ => false
  end.

Fixpoint datum_ok (k : ColKind) (d : Datum) : bool :=
  match k, d with
  | KBool, DBool _ => true
  | KInt16, DInt v => signed_ok 2 v
  | (KInt32 | KDate), DInt v => signed_ok 4 v
  | (KInt64 | KTimestamp), DInt v => signed_ok 8 v
  | KFloat, DBits v => unsigned_ok 4 v
  | KDouble, DBits v => unsigned_ok 8 v
  | KOpaque n, DBytes bs => Nat.eqb (List.length bs) n && forallb byte_ok bs
  | (KVarchar | KList | KRow), DBytes bs => forallb byte_ok bs
  | KTuple ks ns, DTuple xs => elems_ok datum_ok ks ns xs
  | _, _ => false
  end.

(** A value tuple conforms to a schema: one value per column, each of the
    column's type, null only where the column is nullable. *)
Definition conformsb (cols : Schema) (vals : list Value) : bool :=
  elems_ok datum_ok (map ctype cols) (map cnullable cols) vals.

Definition bool_byte (b : bool) : Z := if b then 1 else 0.

Definition encode_fixed (k : ColKind) (d : Datum) : list Z :=
  match k, d with
  | KBool, DBool b => [bool_byte b]
  | KInt16, DInt v => le_encode 2 (to_unsigned 2 v)
  | (KInt32 | KDate), DInt v => le_encode 4 (to_unsigned 4 v)
  | (KInt64 | KTimestamp), DInt v => le_encode 8 (to_unsigned 8 v)
  | KFloat, DBits v => le_encode 4 v
  | KDouble, DBits v => le_encode 8 v
  | KOpaque _, DBytes bs => bs
  | _, _ => zeros (slot_width k)
  end.

Definition decode_fixed (k : ColKind) (bs : list Z) : Datum :=
  match k with
  | KBool => DBool (negb (hd 0 bs =? 0))
  | KInt16 => DInt (of_unsigned 2 (le_decode bs))
  | KInt32 | KDate => DInt (of_unsigned 4 (le_decode bs))
  | KInt64 | KTimestamp => DInt (of_unsigned 8 (le_decode bs))
  | KFloat | KDouble => DBits (le_decode bs)
  | KOpaque _ | KVarchar | KList | KRow => DBytes bs
  | KTuple _ _ => DTuple []
  end.

Definition datum_bytes (d : Datum) : list Z :=
  match d with DBytes bs => bs | _ => [] end.

(** The data a reader gets for a null field. *)
Definition default_datum (k : ColKind) : Datum :=
  match k with
  | KBool => DBool false
  | KInt16 | KInt32 | KInt64 | KTimestamp | KDate => DInt 0
  | KFloat | KDouble => DBits 0
  | KOpaque _ | KVarchar | KList | KRow => DBytes []
  | KTuple _ _ => DTuple []
  end.

(** Null bitmap as an integer: bit [i] set iff field [i] is null. *)
Definition null_bits (vals : list Value) : Z :=
  fold_right (fun x acc => bool_byte (is_null x) + 2 * acc) 0 vals.

(** Fixed-field area and variable-data area of fields of types [ks];
    [var_off] is the offset where the next variable field's bytes go and
    [ev] gives the bytes of a non-null value. *)
Definition encode_cols (ev : ColKind -> Datum -> list Z) :=
  fix encode_cols (ks : list ColKind) (vals : list Value) (var_off : nat)
    : list Z * list Z :=
  match ks, vals with
  | k :: ks', x :: xs =>
      if is_null x then
        let '(F, V) := encode_cols ks' xs var_off in
        (zeros (slot_width k) ++ F, V)
      else
        match wire_width k with
        | Some _ =>
            let '(F, V) := encode_cols ks' xs var_off in
            (ev k (value x) ++ F, V)
        | None =>
            let bs := ev k (value x) in
            let '(F, V) := encode_cols ks' xs (var_off + List.length bs)%nat in
            (le_encode 4 (Z.of_nat var_off) ++ le_encode 4 (Z.of_nat (List.length bs)) ++ F,
             bs ++ V)
        end
  | _, _ => ([], [])
  end.

(** Null bitmap, fixed-field area and variable-data area, for a slice whose
    first [base] bytes are a header: offsets count from the slice start. *)
Definition encode_body (ev : ColKind -> Datum -> list Z) (base : nat)
  (ks : list ColKind) (vals : list Value) : list Z :=
  let bm := bitmap_bytes (List.length ks) in
  let '(F, V) := encode_cols ev ks vals (base + bm + fixed_len ks) in
  le_encode bm (null_bits vals) ++ F ++ V.

(** The bytes of a non-null value.  A tuple is a nested mini-row: its own
    null bitmap (its local mini-header), one slot per element (the value,
    or an offset/length pair for a variable element) and its elements'
    variable data, offsets counting from the start of the tuple. *)
Fixpoint encode_value (k : ColKind) (d : Datum) : list Z :=
  match k with
  | KTuple ks _ =>
      match d with
      | DTuple xs => encode_body encode_value 0 ks xs
      | _ => []
      end
  | KVarchar | KList | KRow => datum_bytes d
  | _ => encode_fixed k d
  end.

Definition Encode (cols : Schema) (vals : list Value) : list Z + CodecError :=
  if negb (conformsb cols vals) then inr SchemaMismatch
  else
    let body := encode_body encode_value HEADER_SIZE (map ctype cols) vals in
    let total := (HEADER_SIZE + List.length body)%nat in
    if 2 ^ 32 <=? Z.of_nat total then inr Overflow
    else inl (le_encode 4 (Z.of_nat total) ++ [VERSION] ++ body).

(** Fields of types [ks], the [i]-th null bit onwards, slots from [pos];
    [dv] reads a non-null value from its bytes. *)
Definition decode_cols (dv : ColKind -> list Z -> Datum + CodecError) (s : list Z) :=
  fix decode_cols (ks : list ColKind) (i pos : nat) (bits : Z)
    : list Value + CodecError :=
  match ks with
  | [] => inl []
  | k :: ks' =>
      let field :=
        if Z.testbit bits (Z.of_nat i) then
          inl (Build_Nullable (default_datum k) true)
        else
          match wire_width k with
          | Some w =>
              match dv k (sub s pos w) with
              | inl d => inl (Build_Nullable d false)
              | inr e => inr e
              end
          | None =>
              let off := Z.to_nat (le_decode (sub s pos 4)) in
              let len := Z.to_nat (le_decode (sub s (pos + 4) 4)) in
              if Nat.ltb (List.length s) (off + len) then inr Truncated
              else
                match dv k (sub s off len) with
                | inl d => inl (Build_Nullable d false)
                | inr e => inr e
                end
          end in
      match field with
      | inr e => inr e
      | inl f =>
          match decode_cols ks' (S i) (pos + slot_width k)%nat bits with
          | inl fs => inl (f :: fs)
          | inr e => inr e
          end
      end
  end.

(** The fields of a slice whose first [base] bytes are a header, all
    bounds validated up front. *)
Definition decode_body (dv : ColKind -> list Z -> Datum + CodecError) (s : list Z)
  (base : nat) (ks : list ColKind) : list Value + CodecError :=
  let bm := bitmap_bytes (List.length ks) in
  if Nat.ltb (List.length s) (base + bm + fixed_len ks) then inr Truncated
  else decode_cols dv s ks 0 (base + bm) (le_decode (sub s base bm)).

Fixpoint decode_value (k : ColKind) (bs : list Z) : Datum + CodecError :=
  match k with
  | KTuple ks _ =>
      match decode_body decode_value bs 0 ks with
      | inl xs => inl (DTuple xs)
      | inr e => inr e
      end
  | _ => inl (decode_fixed k bs)
  end.

(** [Decode]: the field values a [RowView] over the slice exposes. *)
Definition Decode (cols : Schema) (s : list Z) : list Value + CodecError :=
  decode_body decode_value s HEADER_SIZE (map ctype cols).

(* ------------------------------------------------------------------------ *)
(** ** Slice-chain codec of [sql_rpc_row_codec.h] *)

(** Modelled from the spec: [DecodeRpcRow] and [EncodeRpcRow]
    (sdk/sql_rpc_row_codec.cc, not part of this file set), after section 4.3
    of the spec.  The buffer chain is read as one byte sequence; each slice is
    prefixed by its own header, whose first 4 bytes give the slice's total
    length. *)

Definition declared_length (slice : list Z) : nat := Z.to_nat (le_decode (sub slice 0 4)).

Fixpoint chain_loop (buf : list Z) (n pos rem : nat) : list (list Z) + CodecError :=
  match n with
  | O => if Nat.eqb rem 0 then inl [] else inr SliceCountMismatch
  | S k =>
      if Nat.ltb rem 4 then inr SliceCountMismatch
      else
        let L := Z.to_nat (le_decode (sub buf pos 4)) in
        if Nat.ltb L HEADER_SIZE || Nat.ltb rem L then inr Truncated
        else
          match chain_loop buf k (pos + L) (rem - L) with
          | inl rest => inl (sub buf pos L :: rest)
          | inr e => inr e
          end
  end.

Definition DecodeRpcRow (buf : list Z) (offset size slice_num : nat)
  : list (list Z) + CodecError :=
  if Nat.ltb (List.length buf) (offset + size) then inr Truncated
  else chain_loop buf slice_num offset size.

(** [EncodeRpcRow]: the slices appended in order, and the bytes written. *)
Definition EncodeRpcRow (row : list (list Z)) (buf : list Z) : list Z * nat :=
  (buf ++ List.concat row, List.length (List.concat row)).

Close Scope Z_scope.

(* ------------------------------------------------------------------------ *)
(** ** Auxiliary definitions and sample inputs *)

Definition ex_schema : Schema :=
  [ {| cname := "id"; ctype := KInt32; cnullable := false |};
    {| cname := "name"; ctype := KVarchar; cnullable := true |} ].
Definition ex_row1 : list Value := [Nullable_of (DInt 1); Nullable_of (DBytes [97; 98])%Z].
Definition ex_row2 : list Value := [Nullable_of (DInt (-2)); Nullable_nullptr (DBytes [7])%Z].

(** Induction over type nodes, with the nested generic slots. *)
Section TypeNodeInd.
Variable P : TypeNode -> Prop.
Definition Popt (g : option TypeNode) : Prop :=
  match g with Some x => P x | None => True end.
Hypothesis HMk : forall b gs fl, Forall Popt gs -> P (TypeNodeMk b gs fl).
Hypothesis HOp : forall k, P (OpaqueTypeNode k).
Hypothesis HRw : forall ss, P (RowTypeNode ss).

Fixpoint TypeNode_ind' (n : TypeNode) : P n :=
  match n with
  | TypeNodeMk b gs fl =>
      HMk b gs fl
        ((fix go (l : list (option TypeNode)) : Forall Popt l :=
            match l with
            | [] => Forall_nil Popt
            | g :: r =>
                Forall_cons g
                  (match g return Popt g with
                   | Some x => TypeNode_ind' x
                   | None => I
                   end) (go r)
            end) gs)
  | OpaqueTypeNode k => HOp k
  | RowTypeNode ss => HRw ss
  end.
End TypeNodeInd.

(** Induction over column types, with the element list of [KTuple]. *)
Section ColKindInd.
Variable P : ColKind -> Prop.
Hypothesis HBool : P KBool.
Hypothesis HI16 : P KInt16.
Hypothesis HI32 : P KInt32.
Hypothesis HI64 : P KInt64.
Hypothesis HFloat : P KFloat.
Hypothesis HDouble : P KDouble.
Hypothesis HTs : P KTimestamp.
Hypothesis HDate : P KDate.
Hypothesis HVarchar : P KVarchar.
Hypothesis HOpaque : forall n, P (KOpaque n).
Hypothesis HList : P KList.
Hypothesis HRow : P KRow.
Hypothesis HTuple : forall ks ns, Forall P ks -> P (KTuple ks ns).

Fixpoint ColKind_ind' (k : ColKind) : P k :=
  match k with
  | KBool => HBool | KInt16 => HI16 | KInt32 => HI32 | KInt64 => HI64
  | KFloat => HFloat | KDouble => HDouble | KTimestamp => HTs | KDate => HDate
  | KVarchar => HVarchar | KOpaque n => HOpaque n | KList => HList | KRow => HRow
  | KTuple ks ns =>
      HTuple ks ns ((fix go (l : list ColKind) : Forall P l :=
                       match l with
                       | [] => Forall_nil P
                       | x :: r => Forall_cons x (ColKind_ind' x) (go r)
                       end) ks)
  end.
End ColKindInd.

(** Reading back a non-null value of type [k] from its bytes. *)
Definition rt_ok (k : ColKind) : Prop :=
  forall d, datum_ok k d = true ->
  (Z.of_nat (List.length (encode_value k d)) < 2 ^ 32)%Z ->
  exists d', decode_value k (encode_value k d) = inl d' /\ datum_eqb d' d = true.

(** Equal values conform alike and encode alike. *)
Definition ext_ok (k : ColKind) : Prop :=
  forall a b, datum_eqb a b = true ->
  datum_ok k a = datum_ok k b /\ encode_value k a = encode_value k b.

(** Closes [forall ks ns, k <> KTuple ks ns] for a constructor [k]. *)
Ltac not_tuple := let ks := fresh in let ns := fresh in let H := fresh in
  intros ks ns H; discriminate H.

Definition values_eq (v1 v2 : list Value) : Prop :=
  Forall2 (fun a b => nullable_eqb datum_eqb a b = true) v1 v2.

Definition sum_declared (slices : list (list Z)) : nat :=
  fold_right (fun sl acc => (declared_length sl + acc)%nat) 0%nat slices.

Definition ex_slice2 : list Z :=
  [18; 0; 0; 0; 1; 2; 254; 255; 255; 255; 0; 0; 0; 0; 0; 0; 0; 0]%Z.

Definition ex_schema_x : Schema := [ {| cname := "x"; ctype := KInt64; cnullable := false |} ].
Definition ex_schema_y : Schema := [ {| cname := "y"; ctype := KVarchar; cnullable := false |} ].
Definition ex_slice_a : list Z := [14; 0; 0; 0; 1; 0; 42; 0; 0; 0; 0; 0; 0; 0]%Z.
Definition ex_slice_b : list Z := [15; 0; 0; 0; 1; 0; 14; 0; 0; 0; 1; 0; 0; 0; 122]%Z.

Definition ex_row2' : list Value := [Nullable_of (DInt (-2)); Nullable_nullptr (DBytes [1; 2; 3])%Z].

(** A row with a variable-width tuple column and a fixed-width one. *)
Definition ex_schema_t : Schema :=
  [ {| cname := "id"; ctype := KInt32; cnullable := false |};
    {| cname := "t"; ctype := KTuple [KInt16; KVarchar] [false; true]; cnullable := true |};
    {| cname := "p"; ctype := KTuple [KBool; KInt32] [true; false]; cnullable := false |} ].
Definition ex_row_t : list Value :=
  [ Nullable_of (DInt 7);
    Nullable_of (DTuple [Nullable_of (DInt (-3)); Nullable_of (DBytes [104; 105])]);
    Nullable_of (DTuple [Nullable_nullptr (DBool true); Nullable_of (DInt 5)]) ]%Z.
Definition ex_row_t' : list Value :=
  [ Nullable_of (DInt 7);
    Nullable_of (DTuple [Nullable_of (DInt (-3)); Nullable_of (DBytes [104; 105])]);
    Nullable_of (DTuple [Nullable_nullptr (DBool false); Nullable_of (DInt 5)]) ]%Z.
(** Header (total 37, version 1), bitmap, [id], the offset 24 and length 13
    of [t], [p] in place (its bitmap, a zeroed slot for its null element,
    then 5); at 24, [t]'s payload: its bitmap, -3, the offset 11 and length
    2 of its string, then the string. *)
Definition ex_slice_t : list Z :=
  [37; 0; 0; 0; 1; 0; 7; 0; 0; 0; 24; 0; 0; 0; 13; 0; 0; 0; 1; 0; 5; 0; 0; 0;
   0; 253; 255; 11; 0; 0; 0; 2; 0; 0; 0; 104; 105]%Z.

(** The separator join read as a recursion on the list: names separated by
    [sep], nothing after the last one. *)
Fixpoint join_spec (sep : string) (names : list string) : string :=
  match names with
  | [] => ""
  | [x] => x
  | x :: rest => x ++ sep ++ join_spec sep rest
  end.

(** The decimal value of a string of digits, the inverse of [nat_to_string]. *)
Definition parse_digits (s : string) (acc : nat) : nat :=
  fold_left (fun a c => a * 10 + (Ascii.nat_of_ascii c - 48)) (list_ascii_of_string s) acc.

(** A type node is well formed when every node in it has one nullability
    flag per generic slot. *)
Fixpoint wf_node (n : TypeNode) : bool :=
  match n with
  | TypeNodeMk _ gs fl =>
      Nat.eqb (List.length gs) (List.length fl) &&
      (fix go (l : list (option TypeNode)) : bool :=
         match l with
         | [] => true
         | Some x :: r => wf_node x && go r
         | None :: r => go r
         end) gs
  | OpaqueTypeNode _ | RowTypeNode _ => true
  end.

(** The base type of a type node: [kOpaque] for an opaque node and [kRow]
    for a row node. *)
Definition node_type_enum (n : TypeNode) : DataType :=
  match n with
  | TypeNodeMk b _ _ => b
  | OpaqueTypeNode _ => kOpaque
  | RowTypeNode _ => kRow
  end.

(** A literal type with its [Nullable] wrappers removed. *)
Fixpoint strip_nullable (t : Literal) : Literal :=
  match t with LNullable u => strip_nullable u | other => other end.

(** A literal type with every [Nullable] wrapper removed, at any depth. *)
Fixpoint erase_lit (t : Literal) : Literal :=
  match t with
  | LNullable u => erase_lit u
  | LListRef u => LListRef (erase_lit u)
  | LTuple ts => LTuple (map erase_lit ts)
  | LLiteralTypedRow ts => LLiteralTypedRow (map erase_lit ts)
  | other => other
  end.

(** Literal types built without [Tuple], [LiteralTypedRow] and [Opaque]. *)
Fixpoint flat (t : Literal) : bool :=
  match t with
  | LListRef u | LNullable u => flat u
  | LTuple _ | LLiteralTypedRow _ | LOpaque _ => false
  | _ => true
  end.

(** The order on constants of one literal type; constants of different
    kinds are not comparable. *)
Definition val_le (a b : LitVal) : bool :=
  match a, b with
  | VBool x, VBool y => implb x y
  | VNum x, VNum y | VTimestamp x, VTimestamp y | VDate x, VDate y => (x <=? y)%Z
  | VString x, VString y =>
      match String.compare (sdata_ x) (sdata_ y) with Gt => false | _ => true end
  | _, _ => false
  end.

(* ======================================================================== *)
(** * Sample evaluations *)

Example sig_ex : LiteralToArgTypesSignature [LInt32; LNullable LStringRef; LTuple [LBool; LOpaque (CStruct 0 16)]]
  = "int32, string, tuple_bool_opaque<16>". Proof. reflexivity. Qed.
Example ex_rt1 : match Encode ex_schema ex_row1 with inl s => Decode ex_schema s | inr e => inr e end = inl ex_row1. Proof. vm_compute. reflexivity. Qed.
Example ex_rt2 : match Encode ex_schema ex_row2 with inl s => Decode ex_schema s | inr e => inr e end = inl [Nullable_of (DInt (-2)); Build_Nullable (DBytes []) true]. Proof. vm_compute. reflexivity. Qed.
Example ex_enc1 : Encode ex_schema ex_row1 = inl [20;0;0;0;1; 0; 1;0;0;0; 18;0;0;0; 2;0;0;0; 97;98]%Z. Proof. vm_compute. reflexivity. Qed.

(* ======================================================================== *)
(** * Properties of the type-binding layer *)

Lemma node_string_erase_n (n : TypeNode) :
  node_string_n (erase_nullable n) = node_string_n n.
Proof.
  induction n as [b gs fl IH | k | ss] using TypeNode_ind'; simpl; try reflexivity.
  assert (Hmap : map (fun g => match g with Some x => node_string_n x | None => "?" end)
                   (map (option_map erase_nullable) gs)
                 = map (fun g => match g with Some x => node_string_n x | None => "?" end) gs).
  { rewrite map_map. apply map_ext_Forall.
    eapply Forall_impl; [| exact IH].
    intros [x|] Hx; simpl in *; [exact Hx | reflexivity]. }
  destruct b; simpl; try reflexivity.
  - destruct gs as [| [x|] [| g2 r]]; simpl; try reflexivity.
    inversion IH; subst. simpl in *. now rewrite H1.
  - now rewrite Hmap.
Qed.

Lemma node_string_erase (o : option TypeNode) :
  node_string (option_map erase_nullable o) = node_string o.
Proof. destruct o; simpl; [apply node_string_erase_n | reflexivity]. Qed.

Lemma make_literal_schema_some (ts : list Literal) (i : nat) :
  forallb (fun u => if codec_type_enum u then true else false) ts = true ->
  exists sch, make_literal_schema_from i ts = Some sch.
Proof.
  revert i; induction ts as [| t ts IH]; intros i H; simpl in *.
  - eauto.
  - apply andb_true_iff in H as [Ht Hts].
    destruct (codec_type_enum t); [| discriminate].
    destruct (IH (S i) Hts) as [sch ->]. eauto.
Qed.

(** The name of a literal type is the name of its resolved node. *)
Lemma to_string_node (t : Literal) :
  instantiable t = true -> to_string t = node_string (to_type_node t).
Proof.
  induction t as [| | | | | | | | | | u IH | k | u IH | ts IH | ts IH]
    using Literal_ind'; simpl; intros Hi; try reflexivity.
  - rewrite (IH Hi). destruct (to_type_node u); reflexivity.
  - exact (IH Hi).
  - assert (Hm : map to_string ts = map (fun x => node_string (to_type_node x)) ts).
    { apply map_ext_Forall. rewrite forallb_forall in Hi.
      apply Forall_forall. intros x Hx.
      rewrite Forall_forall in IH. exact (IH x Hx (Hi x Hx)). }
    rewrite Hm, map_map. reflexivity.
  - unfold MakeLiteralSchema.
    destruct (make_literal_schema_some ts 0 Hi) as [sch ->]. reflexivity.
Qed.

Lemma map_to_string_erased (ts : list Literal) :
  forallb instantiable ts = true ->
  map to_string ts = map node_string (erased_args ts).
Proof.
  induction ts as [| t ts IH]; simpl; intros H; [reflexivity |].
  apply andb_true_iff in H as [Ht Hts].
  rewrite (IH Hts), node_string_erase, (to_string_node t Ht). reflexivity.
Qed.

Lemma find_key_head {F} (k : string) (f : F) (reg : Registry F) :
  find (fun kv => String.eqb (fst kv) k) ((k, f) :: reg) = Some (k, f).
Proof. simpl. now rewrite String.eqb_refl. Qed.

(** C2: a [Nullable<T>] resolves to the same name, type enum and type node
    as [T]; only [IsNullableTrait] tells them apart, true for the wrapper
    and false for the unwrapped [T]. *)
Theorem nullable_resolves_as_unwrapped (t : Literal) :
  (forall u, t <> LNullable u) ->
  to_string (LNullable t) = to_string t /\
  to_type_enum (LNullable t) = to_type_enum t /\
  to_type_node (LNullable t) = to_type_node t /\
  IsNullableTrait (LNullable t) = true /\
  IsNullableTrait t = false.
Proof.
  intros Hnot. repeat split.
  destruct t; try reflexivity. exfalso. exact (Hnot t eq_refl).
Qed.

Lemma nullable_resolves_as_unwrapped_witness :
  (forall u, LStringRef <> LNullable u) /\
  to_type_node (LNullable LStringRef) = to_type_node LStringRef /\
  IsNullableTrait LStringRef = false.
Proof.
  assert (H : forall u, LStringRef <> LNullable u) by discriminate.
  destruct (nullable_resolves_as_unwrapped LStringRef H) as (_ & _ & Hn & _ & Hf).
  exact (conj H (conj Hn Hf)).
Defined.

(** C3: the signature string does not see a [Nullable] wrapper; bindings
    whose resolved type nodes agree once nullability is erased have the
    same signature, so registering the second fails with
    [DuplicateSignature]. *)
Theorem ambiguous_signature_duplicate :
  (forall pre post t,
      LiteralToArgTypesSignature (pre ++ LNullable t :: post)
      = LiteralToArgTypesSignature (pre ++ t :: post)) /\
  (forall (F : Type) (reg reg' : Registry F) b1 b2 f1 f2,
      forallb instantiable b2 = true ->
      erased_args b1 = erased_args b2 ->
      registry_register reg b1 f1 = inl reg' ->
      LiteralToArgTypesSignature b1 = LiteralToArgTypesSignature b2 /\
      registry_register reg' b2 f2 = inr DuplicateSignature).
Proof.
  split.
  - intros pre post t. unfold LiteralToArgTypesSignature.
    rewrite !map_app. reflexivity.
  - intros F reg reg' b1 b2 f1 f2 Hi2 Herase Hreg.
    unfold registry_register in Hreg.
    destruct (forallb instantiable b1) eqn:Hi1; simpl in Hreg; [| discriminate].
    destruct (registry_lookup reg b1); [discriminate |].
    injection Hreg as <-.
    assert (Hsig : LiteralToArgTypesSignature b1 = LiteralToArgTypesSignature b2).
    { unfold LiteralToArgTypesSignature.
      rewrite (map_to_string_erased b1 Hi1), (map_to_string_erased b2 Hi2), Herase.
      reflexivity. }
    split; [exact Hsig |].
    unfold registry_register. rewrite Hi2. simpl.
    unfold registry_lookup. rewrite <- Hsig, find_key_head. reflexivity.
Qed.

Lemma ambiguous_signature_duplicate_witness :
  exists reg',
    registry_register (F := nat) [] [LInt32; LNullable LStringRef] 1 = inl reg' /\
    registry_register reg' [LNullable LInt32; LStringRef] 2 = inr DuplicateSignature.
Proof.
  exists [("int32, string", 1)].
  split; [reflexivity |].
  apply (proj2 ambiguous_signature_duplicate nat [] _ [LInt32; LNullable LStringRef]
           [LNullable LInt32; LStringRef] 1 2); reflexivity.
Defined.

(** C4, as stated (fixed scalars, [Timestamp] and [Date] included, passed
    by value), fails: [Timestamp] and [Date] are passed by pointer. *)
Lemma timestamp_date_not_by_value :
  pass_mode LTimestamp <> Some ByValue /\ pass_mode LDate <> Some ByValue.
Proof. split; discriminate. Qed.

(** C4, amended: [Bool], [Int16], [Int32], [Int64], [Float] and [Double] are
    passed by value; [Timestamp], [Date], [StringRef], [ListRef<T>] and
    [Opaque<T>] by pointer; [Nullable], [Tuple], the nested row and [AnyArg]
    declare no C-call argument type.  [CCallDataTypeTrait] maps each C-call
    argument type back to its literal type, except that [Opaque<T>] for [T]
    one of [Timestamp], [Date], [StringRef], [ListRef<V>] comes back as [T]
    itself (its [T*] is that of [T]); the by-value [Timestamp], [Date],
    [StringRef] and [ListRef] map to [AnyArg]. *)
Theorem ccall_pass_modes :
  (forall t,
      pass_mode t =
      match t with
      | LBool | LInt16 | LInt32 | LInt64 | LFloat | LDouble => Some ByValue
      | LTimestamp | LDate | LStringRef | LListRef _ | LOpaque _ => Some ByPointer
      | LAnyArg | LNullable _ | LTuple _ | LLiteralTypedRow _ => None
      end) /\
  (forall t c,
      CCallArgType t = Some c ->
      LiteralTag c =
      Some (match t with
            | LOpaque CTimestamp => LTimestamp
            | LOpaque CDate => LDate
            | LOpaque CStringRef => LStringRef
            | LOpaque (CListRef v) => LListRef v
            | _ => t
            end)) /\
  LiteralTag CTimestamp = Some LAnyArg /\ LiteralTag CDate = Some LAnyArg /\
  LiteralTag CStringRef = Some LAnyArg /\
  (forall u, LiteralTag (CListRef u) = Some LAnyArg).
Proof.
  split; [| split].
  - destruct t; reflexivity.
  - intros t c H. destruct t; simpl in H; try discriminate; injection H as <-;
      try reflexivity.
    match goal with T : CType |- _ => destruct T; reflexivity end.
  - repeat split.
Qed.

Lemma ccall_pass_modes_witness :
  pass_mode LTimestamp = Some ByPointer /\ pass_mode LInt64 = Some ByValue /\
  LiteralTag (CPtr (CStruct 0 8)) = Some (LOpaque (CStruct 0 8)) /\
  LiteralTag (CPtr CTimestamp) = Some LTimestamp.
Proof.
  destruct ccall_pass_modes as [Hm [Hr _]].
  split; [apply (Hm LTimestamp) |]. split; [apply (Hm LInt64) |].
  split.
  - apply (Hr (LOpaque (CStruct 0 8)) (CPtr (CStruct 0 8))). reflexivity.
  - apply (Hr (LOpaque CTimestamp) (CPtr CTimestamp)). reflexivity.
Defined.

(** C5: list and tuple nodes carry one nullability flag per generic slot,
    the flag of slot [i] being [IsNullableTrait] of the [i]-th element type. *)
Theorem generics_nullable_per_slot :
  (forall t,
      to_type_node (LListRef t) =
      Some (TypeNodeMk kList [to_type_node t] [IsNullableTrait t])) /\
  (forall ts, exists gs fl,
      to_type_node (LTuple ts) = Some (TypeNodeMk kTuple gs fl) /\
      List.length fl = List.length gs /\ List.length fl = List.length ts /\
      (forall i, nth_error fl i = option_map IsNullableTrait (nth_error ts i))).
Proof.
  split.
  - intros t. reflexivity.
  - intros ts. exists (map to_type_node ts), (map IsNullableTrait ts).
    repeat split; rewrite ?length_map; try reflexivity.
    intros i. apply nth_error_map.
Qed.

(** C6: the [i]-th generic slot of a tuple node is the node of the [i]-th
    declared element type. *)
Theorem tuple_generics_in_order (ts : list Literal) :
  exists gs fl,
    to_type_node (LTuple ts) = Some (TypeNodeMk kTuple gs fl) /\
    List.length gs = List.length ts /\
    (forall i, nth_error gs i = option_map to_type_node (nth_error ts i)).
Proof.
  exists (map to_type_node ts), (map IsNullableTrait ts).
  split; [reflexivity |]. split; [apply length_map |].
  intros i. apply nth_error_map.
Qed.

Section NullableEq.
Variable T : Type.
Variable eqT : T -> T -> bool.

(** C7: [Nullable<T>] equality holds iff both are null, or both are not
    null and their values are equal under [T]'s equality; the data of a
    null is not looked at. *)
Theorem nullable_eq_spec (x y : Nullable T) :
  nullable_eqb eqT x y = true <->
  (is_null x = true /\ is_null y = true) \/
  (is_null x = false /\ is_null y = false /\ eqT (value x) (value y) = true).
Proof.
  unfold nullable_eqb.
  destruct (is_null x), (is_null y); simpl; intuition congruence.
Qed.
End NullableEq.

(** C10: the default constructor yields a value that is not null, for
    [Nullable<T>] and for the [Nullable<StringRef>] specialisation; a null
    [Nullable<StringRef>] built from [nullptr] holds the empty string. *)
Theorem nullable_default_and_null_string :
  (forall (T : Type) (d : T), is_null (Nullable_default d) = false) /\
  (forall d, is_null (Nullable_StringRef_default d) = false) /\
  is_null Nullable_StringRef_nullptr = true /\
  value Nullable_StringRef_nullptr = StringRef_of_cstr "" /\
  size_ (value Nullable_StringRef_nullptr) = 0 /\
  sdata_ (value Nullable_StringRef_nullptr) = "".
Proof. repeat split. Qed.

(* ======================================================================== *)
(** * Properties of the row codec *)

Section Bytes.
Open Scope Z_scope.

Lemma length_le_encode (w : nat) (v : Z) : List.length (le_encode w v) = w.
Proof. revert v; induction w; intros v; simpl; auto. Qed.

Lemma le_decode_encode (w : nat) (v : Z) :
  0 <= v < 2 ^ (8 * Z.of_nat w) -> le_decode (le_encode w v) = v.
Proof.
  unfold le_decode.
  revert v; induction w as [| w IH]; intros v Hv.
  - simpl in Hv. simpl. lia.
  - cbn [le_encode fold_right]. rewrite IH.
    + pose proof (Z.div_mod v 256 ltac:(lia)). lia.
    + split; [apply Z.div_pos; lia |].
      apply Z.div_lt_upper_bound; [lia |].
      replace (8 * Z.of_nat (S w)) with (8 + 8 * Z.of_nat w) in Hv by lia.
      rewrite Z.pow_add_r in Hv by lia. lia.
Qed.

Lemma to_unsigned_range (w : nat) (v : Z) :
  0 <= to_unsigned w v < 2 ^ (8 * Z.of_nat w).
Proof. unfold to_unsigned. apply Z.mod_pos_bound. apply Z.pow_pos_nonneg; lia. Qed.

Lemma of_unsigned_to_unsigned (w : nat) (v : Z) :
  (1 <= w)%nat -> signed_ok w v = true -> of_unsigned w (to_unsigned w v) = v.
Proof.
  intros Hw Hv. unfold signed_ok in Hv.
  apply andb_true_iff in Hv as [H1 H2]. apply Z.leb_le in H1. apply Z.ltb_lt in H2.
  set (h := 8 * Z.of_nat w - 1) in *.
  assert (HM : 2 ^ (8 * Z.of_nat w) = 2 * 2 ^ h).
  { unfold h. rewrite <- Z.pow_succ_r by lia. f_equal. lia. }
  assert (Hh : 0 < 2 ^ h) by (apply Z.pow_pos_nonneg; lia).
  unfold of_unsigned, to_unsigned. fold h. rewrite HM.
  destruct (Z_le_gt_dec 0 v) as [Hpos | Hneg].
  - rewrite Z.mod_small by lia. destruct (Z.ltb_spec v (2 ^ h)); lia.
  - rewrite <- (Z.mod_unique v (2 * 2 ^ h) (-1) (v + 2 * 2 ^ h)) by lia.
    destruct (Z.ltb_spec (v + 2 * 2 ^ h) (2 ^ h)); lia.
Qed.
End Bytes.

Lemma firstn_add_split {A} (n m : nat) (l : list A) :
  firstn (n + m) l = firstn n l ++ firstn m (skipn n l).
Proof.
  revert l; induction n as [| n IH]; intros l; [reflexivity |].
  destruct l; simpl; [now rewrite firstn_nil | now rewrite IH].
Qed.

Lemma app_eq_same_length {A} (x1 y1 x2 y2 : list A) :
  x1 ++ y1 = x2 ++ y2 -> List.length x1 = List.length x2 -> x1 = x2 /\ y1 = y2.
Proof.
  revert x2; induction x1 as [| a x1 IH]; intros [| b x2] H Hl; simpl in *;
    try discriminate; auto.
  injection H as -> H. destruct (IH x2 H) as [-> ->]; auto.
Qed.

Lemma sub_split (s A B : list Z) (pos : nat) :
  sub s pos (List.length A + List.length B) = A ++ B ->
  sub s pos (List.length A) = A /\ sub s (pos + List.length A) (List.length B) = B.
Proof.
  unfold sub. intros H. rewrite firstn_add_split in H.
  assert (Hl : List.length (firstn (List.length A) (skipn pos s)) = List.length A).
  { assert (Hlen := f_equal (@List.length Z) H). rewrite !length_app in Hlen.
    pose proof (firstn_le_length (List.length A) (skipn pos s)).
    pose proof (firstn_le_length (List.length B) (skipn (List.length A) (skipn pos s))).
    lia. }
  destruct (app_eq_same_length _ _ _ _ H Hl) as [HA HB].
  split; [exact HA |]. rewrite skipn_skipn, Nat.add_comm in HB. exact HB.
Qed.

Lemma sub_mid (A B C : list Z) :
  sub (A ++ B ++ C) (List.length A) (List.length B) = B.
Proof.
  unfold sub. induction A as [| a A IH]; simpl; [| exact IH].
  induction B as [| b B IHB]; simpl; [reflexivity | now rewrite IHB].
Qed.

Lemma sub_sub_prefix (s : list Z) (pos k n : nat) :
  (k <= n)%nat -> sub (sub s pos n) 0 k = sub s pos k.
Proof.
  unfold sub. intros Hk. simpl. rewrite firstn_firstn. f_equal. lia.
Qed.

Lemma null_bits_cons (x : Value) (xs : list Value) :
  null_bits (x :: xs) = (bool_byte (is_null x) + 2 * null_bits xs)%Z.
Proof. reflexivity. Qed.

Lemma null_bits_range (vals : list Value) :
  (0 <= null_bits vals < 2 ^ Z.of_nat (List.length vals))%Z.
Proof.
  induction vals as [| x xs IH]; [simpl; lia |].
  rewrite null_bits_cons. cbn [List.length].
  rewrite Nat2Z.inj_succ, Z.pow_succ_r by lia.
  unfold bool_byte. destruct (is_null x); lia.
Qed.

Lemma testbit_null_bits (vals : list Value) (j : nat) (dflt : Value) :
  (j < List.length vals)%nat ->
  Z.testbit (null_bits vals) (Z.of_nat j) = is_null (nth j vals dflt).
Proof.
  revert j; induction vals as [| x xs IH]; intros j Hj; [simpl in Hj; lia |].
  rewrite null_bits_cons. cbn [List.length] in Hj. unfold bool_byte.
  destruct j as [| j]; cbn [nth].
  - destruct (is_null x).
    + rewrite Z.add_comm. apply Z.testbit_odd_0.
    + rewrite Z.add_0_l. apply Z.testbit_even_0.
  - rewrite Nat2Z.inj_succ. rewrite <- (IH j) by lia.
    destruct (is_null x).
    + rewrite Z.add_comm. apply Z.testbit_odd_succ. lia.
    + rewrite Z.add_0_l. apply Z.testbit_even_succ. lia.
Qed.

Lemma fixed_roundtrip (k : ColKind) (d : Datum) (w : nat) :
  (forall ks ns, k <> KTuple ks ns) ->
  datum_ok k d = true -> wire_width k = Some w ->
  List.length (encode_fixed k d) = w /\ decode_fixed k (encode_fixed k d) = d.
Proof.
  intros Hnt Hok Hw.
  destruct k; [.. | exfalso; eapply Hnt; reflexivity];
    destruct d; simpl in Hok, Hw; try discriminate; injection Hw as <-;
    unfold encode_fixed, decode_fixed; rewrite ?length_le_encode.
  - split; [reflexivity |]. destruct b; reflexivity.
  - rewrite le_decode_encode by apply to_unsigned_range.
    rewrite of_unsigned_to_unsigned by (auto; lia). auto.
  - rewrite le_decode_encode by apply to_unsigned_range.
    rewrite of_unsigned_to_unsigned by (auto; lia). auto.
  - rewrite le_decode_encode by apply to_unsigned_range.
    rewrite of_unsigned_to_unsigned by (auto; lia). auto.
  - unfold unsigned_ok in Hok. apply andb_true_iff in Hok as [H1 H2].
    apply Z.leb_le in H1. apply Z.ltb_lt in H2.
    rewrite le_decode_encode by lia. auto.
  - unfold unsigned_ok in Hok. apply andb_true_iff in Hok as [H1 H2].
    apply Z.leb_le in H1. apply Z.ltb_lt in H2.
    rewrite le_decode_encode by lia. auto.
  - rewrite le_decode_encode by apply to_unsigned_range.
    rewrite of_unsigned_to_unsigned by (auto; lia). auto.
  - rewrite le_decode_encode by apply to_unsigned_range.
    rewrite of_unsigned_to_unsigned by (auto; lia). auto.
  - apply andb_true_iff in Hok as [Hl _]. apply Nat.eqb_eq in Hl. auto.
Qed.

Lemma var_shape (k : ColKind) (d : Datum) :
  (forall ks ns, k <> KTuple ks ns) ->
  datum_ok k d = true -> wire_width k = None -> d = DBytes (datum_bytes d).
Proof.
  intros Hnt. destruct k; [.. | exfalso; eapply Hnt; reflexivity];
    destruct d; simpl; congruence.
Qed.

Lemma length_zeros (n : nat) : List.length (zeros n) = n.
Proof. apply repeat_length. Qed.

Lemma le_decode_encode4 (n : nat) :
  (Z.of_nat n < 2 ^ 32)%Z -> Z.to_nat (le_decode (le_encode 4 (Z.of_nat n))) = n.
Proof. intros H. rewrite le_decode_encode by (simpl; lia). apply Nat2Z.id. Qed.

Local Arguments le_encode : simpl never.

(** Unfolding equations of the codec's functions. *)
Lemma widths_sum_cons (ww : ColKind -> option nat) (k : ColKind) (ks : list ColKind) :
  widths_sum ww (k :: ks) =
  match ww k, widths_sum ww ks with Some w, Some r => Some (w + r)%nat | _, _ => None end.
Proof. reflexivity. Qed.

Lemma wire_width_tuple (ks : list ColKind) (ns : list bool) :
  wire_width (KTuple ks ns) =
  match widths_sum wire_width ks with
  | Some w => Some (bitmap_bytes (List.length ks) + w)%nat
  | None => None
  end.
Proof. reflexivity. Qed.

Lemma fixed_len_cons (k : ColKind) (ks : list ColKind) :
  fixed_len (k :: ks) = (slot_width k + fixed_len ks)%nat.
Proof. reflexivity. Qed.

Lemma elems_ok_cons (ok : ColKind -> Datum -> bool) k ks ns x xs :
  elems_ok ok (k :: ks) ns (x :: xs) =
  (if is_null x then hd false ns else ok k (value x)) && elems_ok ok ks (tl ns) xs.
Proof. reflexivity. Qed.

Lemma encode_cols_cons (ev : ColKind -> Datum -> list Z) k ks x xs var_off :
  encode_cols ev (k :: ks) (x :: xs) var_off =
  if is_null x then
    let '(F, V) := encode_cols ev ks xs var_off in (zeros (slot_width k) ++ F, V)
  else
    match wire_width k with
    | Some _ => let '(F, V) := encode_cols ev ks xs var_off in (ev k (value x) ++ F, V)
    | None =>
        let '(F, V) := encode_cols ev ks xs (var_off + List.length (ev k (value x))) in
        (le_encode 4 (Z.of_nat var_off) ++ le_encode 4 (Z.of_nat (List.length (ev k (value x)))) ++ F,
         ev k (value x) ++ V)
    end.
Proof. reflexivity. Qed.

Lemma decode_cols_cons (dv : ColKind -> list Z -> Datum + CodecError) s k ks i pos bits :
  decode_cols dv s (k :: ks) i pos bits =
  match
    (if Z.testbit bits (Z.of_nat i) then inl (Build_Nullable (default_datum k) true)
     else
       match wire_width k with
       | Some w =>
           match dv k (sub s pos w) with
           | inl d => inl (Build_Nullable d false)
           | inr e => inr e
           end
       | None =>
           let off := Z.to_nat (le_decode (sub s pos 4)) in
           let len := Z.to_nat (le_decode (sub s (pos + 4) 4)) in
           if Nat.ltb (List.length s) (off + len) then inr Truncated
           else
             match dv k (sub s off len) with
             | inl d => inl (Build_Nullable d false)
             | inr e => inr e
             end
       end)
  with
  | inr e => inr e
  | inl f =>
      match decode_cols dv s ks (S i) (pos + slot_width k) bits with
      | inl fs => inl (f :: fs)
      | inr e => inr e
      end
  end.
Proof. reflexivity. Qed.

Lemma encode_value_tuple (ks : list ColKind) (ns : list bool) (xs : list Value) :
  encode_value (KTuple ks ns) (DTuple xs) = encode_body encode_value 0 ks xs.
Proof. reflexivity. Qed.

Lemma decode_value_tuple (ks : list ColKind) (ns : list bool) (bs : list Z) :
  decode_value (KTuple ks ns) bs =
  match decode_body decode_value bs 0 ks with
  | inl xs => inl (DTuple xs)
  | inr e => inr e
  end.
Proof. reflexivity. Qed.

Lemma encode_value_flat (k : ColKind) (d : Datum) :
  (forall ks ns, k <> KTuple ks ns) ->
  encode_value k d =
  match wire_width k with Some _ => encode_fixed k d | None => datum_bytes d end.
Proof. intros Hnt. destruct k; try reflexivity. exfalso; eapply Hnt; reflexivity. Qed.

Lemma decode_value_flat (k : ColKind) (bs : list Z) :
  (forall ks ns, k <> KTuple ks ns) -> decode_value k bs = inl (decode_fixed k bs).
Proof. intros Hnt. destruct k; try reflexivity. exfalso; eapply Hnt; reflexivity. Qed.

Lemma datum_eqb_tuple (xs ys : list Value) :
  datum_eqb (DTuple xs) (DTuple ys) = list_eqb (nullable_eqb datum_eqb) xs ys.
Proof. reflexivity. Qed.

Lemma list_eqb_Forall2 {A} (eqA : A -> A -> bool) (l1 l2 : list A) :
  list_eqb eqA l1 l2 = true <-> Forall2 (fun a b => eqA a b = true) l1 l2.
Proof.
  revert l2; induction l1 as [| a r IH]; intros [| b r2]; simpl.
  - split; auto.
  - split; [discriminate | intros H; inversion H].
  - split; [discriminate | intros H; inversion H].
  - rewrite andb_true_iff, IH. split.
    + intros [H1 H2]. constructor; auto.
    + intros H. inversion H; subst. auto.
Qed.

Lemma list_eqb_Z (l1 l2 : list Z) : list_eqb Z.eqb l1 l2 = true <-> l1 = l2.
Proof.
  rewrite list_eqb_Forall2. split.
  - intros H. induction H as [| a b r1 r2 Hab _ IH]; [reflexivity |].
    apply Z.eqb_eq in Hab. congruence.
  - intros <-. induction l1; constructor; [apply Z.eqb_refl | assumption].
Qed.

Lemma datum_eqb_refl_flat (d : Datum) :
  (forall xs, d <> DTuple xs) -> datum_eqb d d = true.
Proof.
  intros Hnt. destruct d; simpl.
  - apply eqb_reflx.
  - apply Z.eqb_refl.
  - apply Z.eqb_refl.
  - apply list_eqb_Z. reflexivity.
  - exfalso; eapply Hnt; reflexivity.
Qed.

Lemma datum_ok_flat (k : ColKind) (xs : list Value) :
  (forall ks ns, k <> KTuple ks ns) -> datum_ok k (DTuple xs) = false.
Proof. intros Hnt. destruct k; try reflexivity. exfalso; eapply Hnt; reflexivity. Qed.

Lemma elems_ok_length (ok : ColKind -> Datum -> bool) (ks : list ColKind) :
  forall ns xs, elems_ok ok ks ns xs = true -> List.length xs = List.length ks.
Proof.
  induction ks as [| k ks IH]; intros ns [| x xs] H; try discriminate; [reflexivity |].
  rewrite elems_ok_cons in H. apply andb_true_iff in H as [_ H].
  simpl. f_equal. eauto.
Qed.

Lemma widths_sum_fixed (ks : list ColKind) (w : nat) :
  widths_sum wire_width ks = Some w ->
  w = fixed_len ks /\ Forall (fun k => wire_width k <> None) ks.
Proof.
  revert w; induction ks as [| k ks IH]; intros w H.
  - injection H as <-. auto.
  - rewrite widths_sum_cons in H.
    destruct (wire_width k) as [wk |] eqn:Hk; [| discriminate].
    destruct (widths_sum wire_width ks) as [r |]; [| discriminate].
    injection H as <-. destruct (IH r eq_refl) as [-> Hf].
    rewrite fixed_len_cons. unfold slot_width. rewrite Hk.
    split; [reflexivity |]. constructor; [congruence | exact Hf].
Qed.

(** The fixed-field area is [fixed_len ks] bytes long when each fixed-width
    value takes its width. *)
Lemma encode_cols_length (ev : ColKind -> Datum -> list Z) (ks : list ColKind) :
  forall ns xs var_off F V,
    (forall k d w, In k ks -> datum_ok k d = true -> wire_width k = Some w ->
       List.length (ev k d) = w) ->
    elems_ok datum_ok ks ns xs = true ->
    encode_cols ev ks xs var_off = (F, V) ->
    List.length F = fixed_len ks.
Proof.
  induction ks as [| k ks IH]; intros ns [| x xs] var_off F V Hev Hc He;
    try discriminate.
  - simpl in He. apply pair_equal_spec in He as [<- _]. reflexivity.
  - rewrite elems_ok_cons in Hc. apply andb_true_iff in Hc as [Hx Hxs].
    assert (Hev' : forall k' d w, In k' ks -> datum_ok k' d = true ->
                     wire_width k' = Some w -> List.length (ev k' d) = w)
      by (intros; apply Hev; simpl; auto).
    rewrite encode_cols_cons in He. rewrite fixed_len_cons.
    destruct (is_null x).
    + destruct (encode_cols ev ks xs var_off) as [F' V'] eqn:He'.
      apply pair_equal_spec in He as [<- _].
      rewrite length_app, length_zeros. erewrite IH; eauto.
    + destruct (wire_width k) as [w |] eqn:Hw.
      * destruct (encode_cols ev ks xs var_off) as [F' V'] eqn:He'.
        apply pair_equal_spec in He as [<- _].
        rewrite length_app, (Hev k (value x) w) by (simpl; auto).
        unfold slot_width. rewrite Hw. erewrite IH; eauto.
      * destruct (encode_cols ev ks xs (var_off + List.length (ev k (value x))))
          as [F' V'] eqn:He'.
        apply pair_equal_spec in He as [<- _].
        rewrite !length_app, !length_le_encode.
        unfold slot_width. rewrite Hw. erewrite IH; eauto.
Qed.

(** With only fixed-width types there is no variable data. *)
Lemma encode_cols_fixed_nil (ev : ColKind -> Datum -> list Z) (ks : list ColKind) :
  Forall (fun k => wire_width k <> None) ks ->
  forall xs var_off F V, encode_cols ev ks xs var_off = (F, V) -> V = [].
Proof.
  induction 1 as [| k ks Hk _ IH]; intros [| x xs] var_off F V He;
    try (simpl in He; injection He as _ <-; reflexivity).
  rewrite encode_cols_cons in He.
  destruct (is_null x).
  - destruct (encode_cols ev ks xs var_off) as [F' V'] eqn:He'.
    apply pair_equal_spec in He as [_ <-]. eauto.
  - destruct (wire_width k) as [w |]; [| congruence].
    destruct (encode_cols ev ks xs var_off) as [F' V'] eqn:He'.
    apply pair_equal_spec in He as [_ <-]. eauto.
Qed.

(** A non-null fixed-width value takes exactly its width. *)
Lemma encode_value_width (k : ColKind) :
  forall d w, datum_ok k d = true -> wire_width k = Some w ->
  List.length (encode_value k d) = w.
Proof.
  induction k as [| | | | | | | | | n | | | ks ns IH] using ColKind_ind';
    intros d w Hok Hw;
    try ((rewrite encode_value_flat by not_tuple); rewrite Hw;
         eapply proj1, fixed_roundtrip; [not_tuple | exact Hok | exact Hw]).
  destruct d as [| | | | xs]; try discriminate.
  rewrite wire_width_tuple in Hw.
  destruct (widths_sum wire_width ks) as [w' |] eqn:Hws; [| discriminate].
  injection Hw as <-.
  destruct (widths_sum_fixed ks w' Hws) as [-> Hfix].
  rewrite encode_value_tuple. unfold encode_body.
  destruct (encode_cols encode_value ks xs _) as [F V] eqn:He.
  rewrite (encode_cols_fixed_nil _ _ Hfix _ _ _ _ He).
  rewrite !length_app, length_le_encode. cbn [List.length].
  rewrite (encode_cols_length encode_value ks ns xs (0 + bitmap_bytes (List.length ks) + fixed_len ks) F V); [lia | | exact Hok | exact He].
  intros k' d' w' Hin. rewrite Forall_forall in IH. exact (IH k' Hin d' w').
Qed.

Lemma nullable_eqb_null (d : Datum) (x : Value) :
  is_null x = true -> nullable_eqb datum_eqb (Build_Nullable d true) x = true.
Proof. intros H. unfold nullable_eqb, is_null in *. simpl. exact H. Qed.

Lemma nullable_eqb_not_null (d : Datum) (x : Value) :
  is_null x = false -> datum_eqb d (value x) = true ->
  nullable_eqb datum_eqb (Build_Nullable d false) x = true.
Proof.
  intros Hn Hd. unfold nullable_eqb. simpl. rewrite Hn, Hd. reflexivity.
Qed.

(** Decoding the fixed-field and variable-data areas written by
    [encode_cols] reads every field back. *)
Lemma decode_encode_cols (ks : list ColKind) :
  forall ns vals var_off F V s i pos bits dflt,
    Forall rt_ok ks ->
    elems_ok datum_ok ks ns vals = true ->
    encode_cols encode_value ks vals var_off = (F, V) ->
    (pos + List.length F <= var_off)%nat ->
    (Z.of_nat (var_off + List.length V) < 2 ^ 32)%Z ->
    (var_off + List.length V <= List.length s)%nat ->
    sub s pos (List.length F) = F ->
    sub s var_off (List.length V) = V ->
    (forall j, (j < List.length vals)%nat ->
       Z.testbit bits (Z.of_nat (i + j)) = is_null (nth j vals dflt)) ->
    exists out, decode_cols decode_value s ks i pos bits = inl out /\ values_eq out vals.
Proof.
  induction ks as [| k ks IH];
    intros ns [| x xs] var_off F V s i pos bits dflt Hrt Hc He Hpos Hlim Hlen HF HV Hbits;
    try discriminate; [exists []; split; [reflexivity | constructor] |].
  inversion Hrt as [| ? ? Hrk Hrks]; subst.
  rewrite elems_ok_cons in Hc. apply andb_true_iff in Hc as [Hx Hxs].
  assert (Hb0 : Z.testbit bits (Z.of_nat i) = is_null x).
  { rewrite <- (Nat.add_0_r i). apply (Hbits 0%nat). simpl; lia. }
  assert (Hbs : forall j, (j < List.length xs)%nat ->
            Z.testbit bits (Z.of_nat (S i + j)) = is_null (nth j xs dflt)).
  { intros j Hj. replace (S i + j)%nat with (i + S j)%nat by lia.
    apply (Hbits (S j)). simpl; lia. }
  rewrite encode_cols_cons in He. rewrite decode_cols_cons.
  rewrite Hb0.
  destruct (is_null x) eqn:Hn.
  - destruct (encode_cols encode_value ks xs var_off) as [F' V'] eqn:He'.
    apply pair_equal_spec in He as [<- <-].
    rewrite length_app in HF, Hpos.
    destruct (sub_split _ _ _ _ HF) as [_ HF'].
    rewrite length_zeros in HF', Hpos.
    destruct (IH (tl ns) xs var_off F' V' s (S i) (pos + slot_width k)%nat bits dflt)
      as (out & Hout & Heq); auto; [lia |].
    rewrite Hout. exists (Build_Nullable (default_datum k) true :: out).
    split; [reflexivity |]. constructor; [apply nullable_eqb_null; exact Hn | exact Heq].
  - destruct (wire_width k) as [w |] eqn:Hw.
    + destruct (encode_cols encode_value ks xs var_off) as [F' V'] eqn:He'.
      apply pair_equal_spec in He as [<- <-].
      pose proof (encode_value_width k (value x) w Hx Hw) as Hfl.
      rewrite length_app in HF, Hpos.
      destruct (sub_split _ _ _ _ HF) as [HA HF'].
      rewrite Hfl in HA, HF', Hpos. rewrite HA.
      destruct (Hrk (value x) Hx ltac:(rewrite Hfl; lia)) as (d' & Hd' & Heqd).
      rewrite Hd'.
      unfold slot_width at 1. rewrite Hw.
      destruct (IH (tl ns) xs var_off F' V' s (S i) (pos + w)%nat bits dflt)
        as (out & Hout & Heq); auto; [lia |].
      rewrite Hout. exists (Build_Nullable d' false :: out).
      split; [reflexivity |]. constructor; [| exact Heq].
      apply nullable_eqb_not_null; assumption.
    + set (bs := encode_value k (value x)) in *.
      destruct (encode_cols encode_value ks xs (var_off + List.length bs)) as [F' V'] eqn:He'.
      apply pair_equal_spec in He as [<- <-].
      rewrite !length_app in Hlim, Hlen, HV, Hpos.
      set (A := le_encode 4 (Z.of_nat var_off) ++ le_encode 4 (Z.of_nat (List.length bs))).
      assert (HF2 : sub s pos (List.length A + List.length F') = A ++ F').
      { unfold A. rewrite <- app_assoc, <- length_app, <- app_assoc. exact HF. }
      destruct (sub_split _ _ _ _ HF2) as [HA HF'].
      unfold A in HA, HF'.
      rewrite length_app in HA.
      destruct (sub_split _ _ _ _ HA) as [Hoff Hln].
      rewrite !length_app, !length_le_encode in HF'.
      rewrite !length_le_encode in Hln.
      rewrite !length_app, !length_le_encode in Hpos.
      destruct (sub_split _ _ _ _ HV) as [Hbytes HV'].
      rewrite !length_le_encode in Hoff.
      cbv zeta.
      rewrite Hoff, Hln.
      rewrite !le_decode_encode4 by lia.
      replace (Nat.ltb (List.length s) (var_off + List.length bs)) with false
        by (symmetry; apply Nat.ltb_ge; lia).
      rewrite Hbytes.
      destruct (Hrk (value x) Hx ltac:(fold bs; lia)) as (d' & Hd' & Heqd).
      fold bs in Hd'. rewrite Hd'.
      unfold slot_width at 1. rewrite Hw.
      destruct (IH (tl ns) xs (var_off + List.length bs)%nat F' V' s (S i) (pos + 8)%nat
                  bits dflt) as (out & Hout & Heq); auto; try lia.
      rewrite Hout. exists (Build_Nullable d' false :: out).
      split; [reflexivity |]. constructor; [| exact Heq].
      apply nullable_eqb_not_null; assumption.
Qed.

Lemma bitmap_fits (n : nat) : (Z.of_nat n <= 8 * Z.of_nat (bitmap_bytes n))%Z.
Proof.
  unfold bitmap_bytes.
  pose proof (Nat.div_mod (n + 7) 8 ltac:(lia)).
  pose proof (Nat.mod_upper_bound (n + 7) 8 ltac:(lia)).
  lia.
Qed.

Lemma le_decode_null_bits (vals : list Value) (w : nat) :
  (Z.of_nat (List.length vals) <= 8 * Z.of_nat w)%Z ->
  le_decode (le_encode w (null_bits vals)) = null_bits vals.
Proof.
  intros Hn. apply le_decode_encode.
  pose proof (null_bits_range vals) as [H0 H1].
  split; [exact H0 |].
  eapply Z.lt_le_trans; [exact H1 |].
  apply Z.pow_le_mono_r; lia.
Qed.

(** Decoding the body written by [encode_body] at [base] in a slice reads
    every field back. *)
Lemma decode_encode_body (ks : list ColKind) (ns : list bool) (vals : list Value)
  (base : nat) (s : list Z) :
  Forall rt_ok ks ->
  elems_ok datum_ok ks ns vals = true ->
  sub s base (List.length (encode_body encode_value base ks vals))
    = encode_body encode_value base ks vals ->
  (base + List.length (encode_body encode_value base ks vals) <= List.length s)%nat ->
  (Z.of_nat (base + List.length (encode_body encode_value base ks vals)) < 2 ^ 32)%Z ->
  exists out, decode_body decode_value s base ks = inl out /\ values_eq out vals.
Proof.
  intros Hrt Hc.
  unfold encode_body.
  set (bm := bitmap_bytes (List.length ks)).
  destruct (encode_cols encode_value ks vals (base + bm + fixed_len ks)) as [F V] eqn:He.
  set (bmb := le_encode bm (null_bits vals)).
  intros Hsub Hlen Hlim.
  assert (Hbmb : List.length bmb = bm) by apply length_le_encode.
  assert (HFl : List.length F = fixed_len ks).
  { eapply (encode_cols_length encode_value ks ns vals); [| exact Hc | exact He].
    intros k d w _. apply encode_value_width. }
  rewrite !length_app in Hsub, Hlen, Hlim.
  rewrite <- length_app in Hsub.
  destruct (sub_split _ _ _ _ Hsub) as [Hb HFV].
  rewrite length_app in HFV.
  destruct (sub_split _ _ _ _ HFV) as [HF HV].
  rewrite Hbmb in HF, HV.
  unfold decode_body. fold bm.
  replace (Nat.ltb (List.length s) (base + bm + fixed_len ks)) with false
    by (symmetry; apply Nat.ltb_ge; lia).
  rewrite Hbmb in Hb. rewrite Hb.
  unfold bmb. rewrite le_decode_null_bits
    by (rewrite (elems_ok_length _ _ _ _ Hc); apply bitmap_fits).
  apply (decode_encode_cols ks ns vals (base + bm + fixed_len ks) F V s 0 (base + bm)
           (null_bits vals) (Build_Nullable (DBool false) false) Hrt Hc He).
  - lia.
  - lia.
  - lia.
  - exact HF.
  - rewrite HFl in HV. exact HV.
  - intros j Hj. simpl. apply testbit_null_bits. exact Hj.
Qed.

Lemma sub_all (s : list Z) : sub s 0 (List.length s) = s.
Proof. unfold sub. simpl. apply firstn_all. Qed.

Lemma rt_flat (k : ColKind) : (forall ks ns, k <> KTuple ks ns) -> rt_ok k.
Proof.
  intros Hnt d Hok _.
  rewrite (encode_value_flat _ _ Hnt), (decode_value_flat _ _ Hnt).
  destruct (wire_width k) as [w |] eqn:Hw.
  - destruct (fixed_roundtrip _ _ _ Hnt Hok Hw) as [_ ->].
    exists d. split; [reflexivity |].
    apply datum_eqb_refl_flat. intros xs ->.
    rewrite datum_ok_flat in Hok by exact Hnt. discriminate.
  - pose proof (var_shape _ _ Hnt Hok Hw) as Hs.
    exists (decode_fixed k (datum_bytes d)). split; [reflexivity |].
    destruct d as [| | | bs |]; simpl in Hs; try discriminate Hs. simpl.
    destruct k; simpl in Hw; try discriminate Hw;
      try (apply list_eqb_Z; reflexivity).
    exfalso; eapply Hnt; reflexivity.
Qed.

(** Every non-null value reads back from its own bytes. *)
Lemma rt_all (k : ColKind) : rt_ok k.
Proof.
  induction k as [| | | | | | | | | n | | | ks ns IH] using ColKind_ind';
    try (apply rt_flat; not_tuple).
  intros d Hok Hlim.
  destruct d as [| | | | xs]; try discriminate.
  rewrite encode_value_tuple in *. rewrite decode_value_tuple.
  destruct (decode_encode_body ks ns xs 0 (encode_body encode_value 0 ks xs) IH Hok)
    as (out & Hout & Heq).
  - apply sub_all.
  - lia.
  - simpl. exact Hlim.
  - rewrite Hout. exists (DTuple out). split; [reflexivity |].
    rewrite datum_eqb_tuple. apply list_eqb_Forall2. exact Heq.
Qed.

Lemma Forall_rt_ok (ks : list ColKind) : Forall rt_ok ks.
Proof. apply Forall_forall. intros k _. apply rt_all. Qed.

Lemma Encode_shape (cols : Schema) (vals : list Value) (s : list Z) :
  Encode cols vals = inl s ->
  conformsb cols vals = true /\
  (Z.of_nat (HEADER_SIZE + List.length (encode_body encode_value HEADER_SIZE (map ctype cols) vals))
     < 2 ^ 32)%Z /\
  s = le_encode 4 (Z.of_nat (HEADER_SIZE
                             + List.length (encode_body encode_value HEADER_SIZE (map ctype cols) vals)))
      ++ [VERSION] ++ encode_body encode_value HEADER_SIZE (map ctype cols) vals.
Proof.
  unfold Encode. destruct (conformsb cols vals) eqn:Hc; [| discriminate].
  cbn [negb].
  set (B := encode_body encode_value HEADER_SIZE (map ctype cols) vals).
  destruct (Z.leb_spec (2 ^ 32) (Z.of_nat (HEADER_SIZE + List.length B))) as [Ho | Ho];
    [discriminate |].
  intros H. injection H as <-. auto.
Qed.

(** C1: for a schema [S] and values [v] conforming to it, decoding the slice
    [Encode S v] gives back [v]: field by field, both null, or both not null
    with equal data (tuples element by element, in the same sense). *)
Theorem Encode_Decode_roundtrip (S : Schema) (v : list Value) (s : list Z) :
  conformsb S v = true ->
  Encode S v = inl s ->
  exists out, Decode S s = inl out /\
    Forall2 (fun a b => nullable_eqb datum_eqb a b = true) out v.
Proof.
  intros Hconf Henc.
  destruct (Encode_shape S v s Henc) as (_ & Hlim & ->).
  set (B := encode_body encode_value HEADER_SIZE (map ctype S) v) in *.
  set (hdr := le_encode 4 (Z.of_nat (HEADER_SIZE + List.length B)) ++ [VERSION]).
  assert (Hhdr : List.length hdr = HEADER_SIZE).
  { unfold hdr. rewrite length_app, length_le_encode. reflexivity. }
  replace (le_encode 4 (Z.of_nat (HEADER_SIZE + List.length B)) ++ [VERSION] ++ B)
    with (hdr ++ B) by (unfold hdr; rewrite <- app_assoc; reflexivity).
  unfold Decode.
  apply (decode_encode_body (map ctype S) (map cnullable S) v HEADER_SIZE (hdr ++ B)
           (Forall_rt_ok _) Hconf).
  - fold B. rewrite <- Hhdr.
    pose proof (sub_mid hdr B []) as H. rewrite app_nil_r in H. exact H.
  - fold B. rewrite length_app. lia.
  - fold B. exact Hlim.
Qed.

Lemma nullable_eqb_datum (x y : Value) :
  nullable_eqb datum_eqb x y = true ->
  is_null x = is_null y /\ (is_null x = false -> datum_eqb (value x) (value y) = true).
Proof.
  unfold nullable_eqb. intros H.
  destruct (is_null x), (is_null y); simpl in H; try discriminate.
  - split; [reflexivity | discriminate].
  - auto.
Qed.

Lemma datum_eqb_cases (a b : Datum) :
  datum_eqb a b = true ->
  a = b \/ exists xs ys, a = DTuple xs /\ b = DTuple ys /\ values_eq xs ys.
Proof.
  destruct a, b; simpl; intros H; try discriminate.
  - left. apply eqb_prop in H. congruence.
  - left. apply Z.eqb_eq in H. congruence.
  - left. apply Z.eqb_eq in H. congruence.
  - left. apply list_eqb_Z in H. congruence.
  - right. exists elems, elems0. split; [reflexivity | split; [reflexivity |]].
    apply list_eqb_Forall2. exact H.
Qed.

Lemma elems_ok_ext (ks : list ColKind) (v1 v2 : list Value) :
  Forall ext_ok ks -> values_eq v1 v2 ->
  forall ns, elems_ok datum_ok ks ns v1 = elems_ok datum_ok ks ns v2.
Proof.
  intros Hks Heq. revert ks Hks.
  induction Heq as [| x y xs ys Hxy Hr IH]; intros [| k ks] Hks ns; try reflexivity.
  inversion Hks as [| ? ? Hk Hks']; subst.
  rewrite !elems_ok_cons. rewrite (IH ks Hks').
  destruct (nullable_eqb_datum x y Hxy) as [Hn Hv].
  rewrite <- Hn. destruct (is_null x); [reflexivity |].
  now rewrite (proj1 (Hk _ _ (Hv eq_refl))).
Qed.

Lemma null_bits_ext (v1 v2 : list Value) :
  values_eq v1 v2 -> null_bits v1 = null_bits v2.
Proof.
  intros Heq. induction Heq as [| x y xs ys Hxy Hr IH]; [reflexivity |].
  rewrite !null_bits_cons, IH.
  destruct (nullable_eqb_datum x y Hxy) as [Hn _]. now rewrite Hn.
Qed.

Lemma encode_cols_ext (ks : list ColKind) (v1 v2 : list Value) :
  Forall ext_ok ks -> values_eq v1 v2 ->
  forall var_off, encode_cols encode_value ks v1 var_off = encode_cols encode_value ks v2 var_off.
Proof.
  intros Hks Heq. revert ks Hks.
  induction Heq as [| x y xs ys Hxy Hr IH]; intros [| k ks] Hks var_off; try reflexivity.
  inversion Hks as [| ? ? Hk Hks']; subst.
  rewrite !encode_cols_cons.
  destruct (nullable_eqb_datum x y Hxy) as [Hn Hv].
  rewrite <- Hn. destruct (is_null x); [now rewrite IH |].
  rewrite (proj2 (Hk _ _ (Hv eq_refl))).
  destruct (wire_width k); now rewrite IH.
Qed.

Lemma encode_body_ext (ks : list ColKind) (v1 v2 : list Value) (base : nat) :
  Forall ext_ok ks -> values_eq v1 v2 ->
  encode_body encode_value base ks v1 = encode_body encode_value base ks v2.
Proof.
  intros Hks Heq. unfold encode_body.
  rewrite (encode_cols_ext ks v1 v2 Hks Heq), (null_bits_ext v1 v2 Heq).
  reflexivity.
Qed.

Lemma ext_all (k : ColKind) : ext_ok k.
Proof.
  induction k as [| | | | | | | | | n | | | ks ns IH] using ColKind_ind';
    intros a b Hab; destruct (datum_eqb_cases a b Hab) as [<- | (xs & ys & -> & -> & Heq)];
    auto.
  rewrite !encode_value_tuple. cbn [datum_ok].
  split; [apply elems_ok_ext | apply encode_body_ext]; assumption.
Qed.

Lemma Forall_ext_ok (ks : list ColKind) : Forall ext_ok ks.
Proof. apply Forall_forall. intros k _. apply ext_all. Qed.

(** C9: [Encode] is deterministic: equal logical inputs (field by field both
    null, or both not null with equal data) give byte-identical slices,
    whatever data the null fields carry. *)
Theorem Encode_deterministic (S : Schema) (v1 v2 : list Value) :
  Forall2 (fun a b => nullable_eqb datum_eqb a b = true) v1 v2 ->
  Encode S v1 = Encode S v2.
Proof.
  intros Heq. unfold Encode, conformsb.
  rewrite (elems_ok_ext _ v1 v2 (Forall_ext_ok _) Heq).
  rewrite (encode_body_ext _ v1 v2 HEADER_SIZE (Forall_ext_ok _) Heq).
  reflexivity.
Qed.


(* ======================================================================== *)
(** * Properties of the slice-chain codec *)

Lemma length_sub (s : list Z) (pos n : nat) :
  (pos + n <= List.length s)%nat -> List.length (sub s pos n) = n.
Proof. intros H. unfold sub. rewrite length_firstn, length_skipn. lia. Qed.

Lemma chain_loop_ok (buf : list Z) (n : nat) :
  forall pos rem slices,
    (pos + rem <= List.length buf)%nat ->
    chain_loop buf n pos rem = inl slices ->
    sum_declared slices = rem /\ List.length slices = n /\
    Forall (fun sl => List.length sl = declared_length sl) slices.
Proof.
  induction n as [| k IH]; intros pos rem slices Hb H; cbn [chain_loop] in H.
  - destruct (Nat.eqb_spec rem 0) as [-> | _]; [| discriminate].
    injection H as <-. repeat constructor.
  - destruct (Nat.ltb_spec rem 4); [discriminate |].
    set (L := Z.to_nat (le_decode (sub buf pos 4))) in H.
    destruct (Nat.ltb_spec L HEADER_SIZE); [discriminate |].
    destruct (Nat.ltb_spec rem L); [discriminate |]. cbn [orb] in H.
    destruct (chain_loop buf k (pos + L) (rem - L)) as [rest |] eqn:Hr; [| discriminate].
    injection H as <-.
    destruct (IH (pos + L)%nat (rem - L)%nat rest ltac:(lia) Hr) as (Hs & Hl & Hf).
    assert (Hd : declared_length (sub buf pos L) = L).
    { unfold declared_length. rewrite sub_sub_prefix by (unfold HEADER_SIZE in *; lia).
      reflexivity. }
    cbn [sum_declared fold_right List.length]. fold (sum_declared rest).
    rewrite Hd, Hs, Hl. split; [lia | split; [reflexivity |]].
    constructor; [| exact Hf]. rewrite Hd. apply length_sub. lia.
Qed.

Lemma chain_loop_errors (buf : list Z) (n : nat) :
  forall pos rem e,
    chain_loop buf n pos rem = inr e -> e = Truncated \/ e = SliceCountMismatch.
Proof.
  induction n as [| k IH]; intros pos rem e H; cbn [chain_loop] in H.
  - destruct (Nat.eqb rem 0); [discriminate | injection H as <-; auto].
  - destruct (Nat.ltb rem 4); [injection H as <-; auto |].
    destruct (_ || _); [injection H as <-; auto |].
    destruct (chain_loop buf k _ _) eqn:Hr; [discriminate |].
    injection H as <-. eapply IH; eauto.
Qed.

(** C8: a decoded row's slices have declared lengths summing to exactly
    [size], [slice_num] of them, each as long as it declares; a chain with
    fewer than [size] bytes from [offset] fails with [Truncated]; every
    failure is [Truncated] or [SliceCountMismatch], with no row. *)
Theorem DecodeRpcRow_exact (buf : list Z) (offset size slice_num : nat) :
  (forall slices,
      DecodeRpcRow buf offset size slice_num = inl slices ->
      sum_declared slices = size /\ List.length slices = slice_num /\
      Forall (fun sl => List.length sl = declared_length sl) slices) /\
  ((List.length buf < offset + size)%nat ->
      DecodeRpcRow buf offset size slice_num = inr Truncated) /\
  (forall e, DecodeRpcRow buf offset size slice_num = inr e ->
      e = Truncated \/ e = SliceCountMismatch).
Proof.
  unfold DecodeRpcRow. split; [| split].
  - intros slices H.
    destruct (Nat.ltb_spec (List.length buf) (offset + size)); [discriminate |].
    eapply chain_loop_ok; eauto.
  - intros H. apply Nat.ltb_lt in H. now rewrite H.
  - intros e H. destruct (Nat.ltb (List.length buf) (offset + size)).
    + injection H as <-. auto.
    + eapply chain_loop_errors; eauto.
Qed.

Lemma Encode_Decode_roundtrip_witness :
  (Encode ex_schema ex_row2 = inl ex_slice2 /\
   exists out, Decode ex_schema ex_slice2 = inl out /\
     Forall2 (fun a b => nullable_eqb datum_eqb a b = true) out ex_row2) /\
  (Encode ex_schema_t ex_row_t = inl ex_slice_t /\
   exists out, Decode ex_schema_t ex_slice_t = inl out /\
     Forall2 (fun a b => nullable_eqb datum_eqb a b = true) out ex_row_t).
Proof.
  assert (He : Encode ex_schema ex_row2 = inl ex_slice2) by (vm_compute; reflexivity).
  assert (Ht : Encode ex_schema_t ex_row_t = inl ex_slice_t) by (vm_compute; reflexivity).
  split; split; [exact He | | exact Ht |].
  - apply (Encode_Decode_roundtrip ex_schema ex_row2 ex_slice2); [vm_compute; reflexivity | exact He].
  - apply (Encode_Decode_roundtrip ex_schema_t ex_row_t ex_slice_t); [vm_compute; reflexivity | exact Ht].
Defined.

Lemma DecodeRpcRow_exact_witness :
  Encode ex_schema_x [Nullable_of (DInt 42)] = inl ex_slice_a /\
  Encode ex_schema_y [Nullable_of (DBytes [122%Z])] = inl ex_slice_b /\
  DecodeRpcRow (fst (EncodeRpcRow [ex_slice_a; ex_slice_b] [])) 0
               (snd (EncodeRpcRow [ex_slice_a; ex_slice_b] [])) 2
    = inl [ex_slice_a; ex_slice_b] /\
  sum_declared [ex_slice_a; ex_slice_b] = snd (EncodeRpcRow [ex_slice_a; ex_slice_b] []).
Proof.
  assert (Hd : DecodeRpcRow (fst (EncodeRpcRow [ex_slice_a; ex_slice_b] [])) 0
                 (snd (EncodeRpcRow [ex_slice_a; ex_slice_b] [])) 2
               = inl [ex_slice_a; ex_slice_b]) by (vm_compute; reflexivity).
  split; [vm_compute; reflexivity |]. split; [vm_compute; reflexivity |].
  split; [exact Hd |].
  exact (proj1 (proj1 (DecodeRpcRow_exact _ _ _ _) _ Hd)).
Defined.

Lemma Encode_deterministic_witness :
  (values_eq ex_row2 ex_row2' /\ Encode ex_schema ex_row2 = Encode ex_schema ex_row2') /\
  (values_eq ex_row_t ex_row_t' /\ Encode ex_schema_t ex_row_t = Encode ex_schema_t ex_row_t').
Proof.
  assert (H : values_eq ex_row2 ex_row2') by (repeat constructor).
  assert (Ht : values_eq ex_row_t ex_row_t') by (vm_compute; repeat constructor).
  exact (conj (conj H (Encode_deterministic ex_schema ex_row2 ex_row2' H))
              (conj Ht (Encode_deterministic ex_schema_t ex_row_t ex_row_t' Ht))).
Defined.

(* ======================================================================== *)
(** * Further properties of [literal_traits.h] *)

(** ** Strings, joins and decimal digits *)

Lemma str_app_nil_r (s : string) : (s ++ "")%string = s.
Proof. induction s as [| c s IH]; simpl; congruence. Qed.

Lemma str_app_assoc (a b c : string) : ((a ++ b) ++ c)%string = (a ++ (b ++ c))%string.
Proof. induction a as [| x a IH]; simpl; congruence. Qed.

Lemma list_ascii_app (a b : string) :
  list_ascii_of_string (a ++ b) = (list_ascii_of_string a ++ list_ascii_of_string b)%list.
Proof. induction a as [| x a IH]; simpl; congruence. Qed.

Lemma str_app_inv_r (a b c : string) : (a ++ c)%string = (b ++ c)%string -> a = b.
Proof.
  intros H. apply (f_equal list_ascii_of_string) in H.
  rewrite !list_ascii_app in H. apply app_inv_tail in H.
  rewrite <- (string_of_list_ascii_of_string a), <- (string_of_list_ascii_of_string b).
  congruence.
Qed.

Lemma str_app_inv_l (a b c : string) : (c ++ a)%string = (c ++ b)%string -> a = b.
Proof. induction c as [| x c IH]; simpl; [auto | intros H; injection H; auto]. Qed.

(** The index test of the join loop puts a separator after every name but
    the last. *)
Lemma join_loop_spec (sep : string) (l : list string) (idx total : nat) :
  (idx + List.length l)%nat = total -> join_loop sep total idx l = join_spec sep l.
Proof.
  revert idx; induction l as [| x rest IH]; intros idx Ht; [reflexivity |].
  destruct rest as [| y r]; simpl in Ht.
  - simpl. replace (Nat.ltb idx (total - 1)) with false
      by (symmetry; apply Nat.ltb_ge; lia).
    rewrite !str_app_nil_r. reflexivity.
  - change (join_loop sep total idx (x :: y :: r)) with
      (x ++ (if Nat.ltb idx (total - 1) then sep else "") ++ join_loop sep total (S idx) (y :: r))%string.
    replace (Nat.ltb idx (total - 1)) with true
      by (symmetry; apply Nat.ltb_lt; lia).
    rewrite (IH (S idx)) by (simpl; lia). reflexivity.
Qed.

Lemma join_names_spec (sep : string) (l : list string) : join_names sep l = join_spec sep l.
Proof. apply join_loop_spec. reflexivity. Qed.

Lemma join_spec_cons (sep x : string) (l : list string) :
  l <> [] -> join_spec sep (x :: l) = (x ++ sep ++ join_spec sep l)%string.
Proof. destruct l; [congruence | reflexivity]. Qed.

Lemma join_spec_app (sep : string) (l1 l2 : list string) :
  l1 <> [] -> l2 <> [] ->
  join_spec sep (l1 ++ l2)%list = (join_spec sep l1 ++ sep ++ join_spec sep l2)%string.
Proof.
  intros H1 H2. induction l1 as [| x r IH]; [congruence |].
  destruct r as [| y r'].
  - change ([x] ++ l2)%list with (x :: l2). rewrite join_spec_cons by exact H2. reflexivity.
  - rewrite <- app_comm_cons, join_spec_cons by (simpl; congruence).
    rewrite IH by congruence.
    rewrite (join_spec_cons sep x (y :: r')) by congruence.
    rewrite !str_app_assoc. reflexivity.
Qed.

Lemma parse_digits_cons (c : Ascii.ascii) (s : string) (acc : nat) :
  parse_digits (String c s) acc = parse_digits s (acc * 10 + (Ascii.nat_of_ascii c - 48)).
Proof. reflexivity. Qed.

Lemma digit_value (d : nat) : d < 10 ->
  Ascii.nat_of_ascii (Ascii.ascii_of_nat (48 + d)) - 48 = d.
Proof. intros H. rewrite Ascii.nat_ascii_embedding by lia. lia. Qed.

Lemma digits_of_parse (f : nat) : forall n, n < f -> forall acc a,
  exists k, parse_digits (digits_of f n acc) a = parse_digits acc (a * 10 ^ k + n).
Proof.
  induction f as [| f IH]; intros n Hn acc a; [lia |].
  cbn [digits_of].
  assert (Hm : n mod 10 < 10) by (apply Nat.mod_upper_bound; lia).
  destruct (Nat.ltb n 10) eqn:Hlt.
  - apply Nat.ltb_lt in Hlt. exists 1.
    rewrite parse_digits_cons, digit_value by exact Hm.
    rewrite Nat.mod_small by exact Hlt. f_equal; lia.
  - apply Nat.ltb_ge in Hlt.
    assert (Hd : n / 10 < f).
    { assert (n / 10 < n) by (apply Nat.div_lt; lia). lia. }
    destruct (IH (n / 10) Hd (String (Ascii.ascii_of_nat (48 + n mod 10)) acc) a) as [k Hk].
    exists (S k). rewrite Hk, parse_digits_cons, digit_value by exact Hm.
    f_equal. rewrite Nat.pow_succ_r'.
    pose proof (Nat.div_mod_eq n 10). nia.
Qed.

Lemma nat_to_string_parse (n : nat) : parse_digits (nat_to_string n) 0 = n.
Proof.
  unfold nat_to_string.
  destruct (digits_of_parse (S n) n (Nat.lt_succ_diag_r n) "" 0) as [k ->].
  reflexivity.
Qed.

Lemma nat_to_string_inj (n m : nat) : nat_to_string n = nat_to_string m -> n = m.
Proof.
  intros H. rewrite <- (nat_to_string_parse n), <- (nat_to_string_parse m), H. reflexivity.
Qed.

Lemma col_name_inj (i j : nat) :
  ("col_" ++ nat_to_string i)%string = ("col_" ++ nat_to_string j)%string -> i = j.
Proof. intros H. apply str_app_inv_l in H. exact (nat_to_string_inj _ _ H). Qed.

Lemma opaque_name_inj (T1 T2 : CType) :
  to_string (LOpaque T1) = to_string (LOpaque T2) -> sizeof_ctype T1 = sizeof_ctype T2.
Proof.
  intros H.
  change (("opaque<" ++ (nat_to_string (sizeof_ctype T1) ++ ">"))
          = ("opaque<" ++ (nat_to_string (sizeof_ctype T2) ++ ">")))%string in H.
  apply str_app_inv_l, str_app_inv_r in H.
  exact (nat_to_string_inj _ _ H).
Qed.

(** ** No type name is empty or contains a comma *)

Lemma digits_of_chars (f : nat) : forall n acc c,
  In c (list_ascii_of_string (digits_of f n acc)) ->
  In c (list_ascii_of_string acc) \/ exists d, d < 10 /\ c = Ascii.ascii_of_nat (48 + d).
Proof.
  induction f as [| f IH]; intros n acc c Hc; simpl in Hc; [auto |].
  assert (Hm : n mod 10 < 10) by (apply Nat.mod_upper_bound; lia).
  destruct (Nat.ltb n 10).
  - simpl in Hc. destruct Hc as [<- | Hc]; [right; eauto | auto].
  - destruct (IH _ _ _ Hc) as [Hc' | Hd]; [| auto].
    simpl in Hc'. destruct Hc' as [<- | Hc']; [right; eauto | auto].
Qed.

Lemma nat_to_string_no_comma (n : nat) :
  ~ In ","%char (list_ascii_of_string (nat_to_string n)).
Proof.
  intros H. destruct (digits_of_chars _ _ _ _ H) as [[] | (d & Hd & Heq)].
  apply (f_equal Ascii.nat_of_ascii) in Heq.
  rewrite Ascii.nat_ascii_embedding in Heq by lia.
  change (Ascii.nat_of_ascii ","%char) with 44 in Heq. lia.
Qed.

Lemma join_spec_chars (sep : string) (l : list string) (c : Ascii.ascii) :
  In c (list_ascii_of_string (join_spec sep l)) ->
  In c (list_ascii_of_string sep) \/ exists x, In x l /\ In c (list_ascii_of_string x).
Proof.
  induction l as [| x r IH]; simpl; [intros [] |].
  destruct r as [| y r'].
  - intros H. right. exists x. auto.
  - rewrite !list_ascii_app. intros H.
    apply in_app_or in H as [H | H]; [right; exists x; auto |].
    apply in_app_or in H as [H | H]; [auto |].
    destruct (IH H) as [Hs | (z & Hz & Hcz)]; [auto | right; exists z; auto].
Qed.

Lemma to_string_no_comma (t : Literal) :
  ~ In ","%char (list_ascii_of_string (to_string t)).
Proof.
  induction t as [| | | | | | | | | | u IH | k | u IH | ts IH | ts IH]
    using Literal_ind'; simpl;
    try (intros H; repeat (destruct H as [H | H]; [discriminate H |]); exact H).
  - intros H. repeat (destruct H as [H | H]; [discriminate H |]). exact (IH H).
  - rewrite list_ascii_app. intros H.
    repeat (destruct H as [H | H]; [discriminate H |]).
    apply in_app_or in H as [H | H]; [exact (nat_to_string_no_comma (sizeof_ctype k) H) |].
    destruct H as [H | []]; discriminate H.
  - exact IH.
  - intros H. repeat (destruct H as [H | H]; [discriminate H |]).
    rewrite join_names_spec in H.
    destruct (join_spec_chars _ _ _ H) as [[H' | []] | (x & Hx & Hcx)]; [discriminate H' |].
    apply in_map_iff in Hx as (u & <- & Hu). rewrite Forall_forall in IH. exact (IH u Hu Hcx).
Qed.

Lemma to_string_nonempty (t : Literal) : to_string t <> ""%string.
Proof. induction t; simpl; congruence. Qed.

Lemma split_at_comma (x y r r' : string) :
  ~ In ","%char (list_ascii_of_string x) -> ~ In ","%char (list_ascii_of_string y) ->
  (x ++ ", " ++ r)%string = (y ++ ", " ++ r')%string -> x = y /\ r = r'.
Proof.
  revert y; induction x as [| c x IH]; intros [| c' y] Hx Hy H; simpl in H.
  - injection H as H. auto.
  - injection H as Hc _. subst c'. simpl in Hy. tauto.
  - injection H as Hc _. subst c. simpl in Hx. tauto.
  - injection H as <- H. simpl in Hx, Hy.
    destruct (IH y (fun h => Hx (or_intror h)) (fun h => Hy (or_intror h)) H) as [-> ->]. auto.
Qed.

Lemma comma_in_sep (x r : string) : In ","%char (list_ascii_of_string (x ++ ", " ++ r)).
Proof. rewrite !list_ascii_app. apply in_or_app. right. simpl. auto. Qed.

Lemma join_spec_inj (l1 l2 : list string) :
  Forall (fun x => ~ In ","%char (list_ascii_of_string x) /\ x <> ""%string) l1 ->
  Forall (fun x => ~ In ","%char (list_ascii_of_string x) /\ x <> ""%string) l2 ->
  join_spec ", " l1 = join_spec ", " l2 -> l1 = l2.
Proof.
  revert l2; induction l1 as [| x r IH]; intros l2 H1 H2 H.
  - destruct l2 as [| y [| z q]]; [reflexivity | |].
    + inversion H2 as [| ? ? [_ Hy] _]. simpl in H. congruence.
    + inversion H2 as [| ? ? [_ Hy] _]. simpl in H. destruct y; [congruence | discriminate].
  - inversion H1 as [| ? ? [Hxc Hxe] Hr]; subst.
    destruct r as [| y r'], l2 as [| y2 [| z2 q2]].
    + simpl in H. congruence.
    + simpl in H. congruence.
    + inversion H2 as [| ? ? [Hyc _] _]; subst. simpl in H. exfalso.
      rewrite H in Hxc. exact (Hxc (comma_in_sep _ _)).
    + simpl in H. destruct x; [congruence | discriminate].
    + inversion H2 as [| ? ? [Hyc _] _]; subst. exfalso.
      change (join_spec ", " (x :: y :: r')) with (x ++ ", " ++ join_spec ", " (y :: r'))%string in H.
      simpl in H. rewrite <- H in Hyc. exact (Hyc (comma_in_sep _ _)).
    + inversion H2 as [| ? ? [Hyc _] Hq]; subst.
      change (join_spec ", " (x :: y :: r')) with (x ++ ", " ++ join_spec ", " (y :: r'))%string in H.
      change (join_spec ", " (y2 :: z2 :: q2)) with (y2 ++ ", " ++ join_spec ", " (z2 :: q2))%string in H.
      destruct (split_at_comma _ _ _ _ Hxc Hyc H) as [-> Hrest].
      f_equal. exact (IH _ Hr Hq Hrest).
Qed.

Lemma signature_names (ts1 ts2 : list Literal) :
  LiteralToArgTypesSignature ts1 = LiteralToArgTypesSignature ts2 ->
  map to_string ts1 = map to_string ts2.
Proof.
  unfold LiteralToArgTypesSignature. rewrite !join_names_spec. intros H.
  refine (join_spec_inj (map to_string ts1) (map to_string ts2) _ _ H);
    apply Forall_forall; intros x Hx; apply in_map_iff in Hx as (u & <- & _);
    (split; [apply to_string_no_comma | apply to_string_nonempty]).
Qed.

(** ** Names of flat types *)

Lemma flat_names_erase (t1 t2 : Literal) :
  flat t1 = true -> flat t2 = true -> to_string t1 = to_string t2 ->
  erase_lit t1 = erase_lit t2.
Proof.
  revert t2. induction t1; intros t2 H1 H2 H;
    [ .. | cbn [flat erase_lit to_string] in H1, H |- *; exact (IHt1 t2 H1 H2 H) | | ];
    induction t2; cbn [flat erase_lit] in H1, H2 |- *;
    try discriminate H1; try discriminate H2;
    try (cbn [to_string] in H; exact (IHt2 H2 H));
    try reflexivity;
    try (cbn [to_string] in H; discriminate H).
  - cbn [to_string] in H. apply str_app_inv_l in H. f_equal. exact (IHt1 t2 H1 H2 H).
Qed.

Lemma to_string_erase_flat (t : Literal) : flat t = true -> to_string (erase_lit t) = to_string t.
Proof. induction t; simpl; intros H; try discriminate; auto. rewrite IHt by exact H. reflexivity. Qed.

Lemma map_flat_names (ts1 ts2 : list Literal) :
  forallb flat ts1 = true -> forallb flat ts2 = true ->
  map to_string ts1 = map to_string ts2 -> map erase_lit ts1 = map erase_lit ts2.
Proof.
  revert ts2; induction ts1 as [| a ts1 IH]; intros [| b ts2] H1 H2 H; try discriminate; auto.
  simpl in H1, H2, H. apply andb_true_iff in H1 as [Ha H1]. apply andb_true_iff in H2 as [Hb H2].
  injection H as Hab Hts. simpl. f_equal; [exact (flat_names_erase a b Ha Hb Hab) | exact (IH ts2 H1 H2 Hts)].
Qed.

Lemma map_to_string_erase_flat (ts : list Literal) :
  forallb flat ts = true -> map to_string (map erase_lit ts) = map to_string ts.
Proof.
  induction ts as [| a ts IH]; simpl; intros H; [reflexivity |].
  apply andb_true_iff in H as [Ha H]. rewrite to_string_erase_flat, IH by assumption. reflexivity.
Qed.

(** ** Schemas, type nodes and constants *)

Lemma make_schema_from_shape (ts : list Literal) : forall (i : nat) (s : CodecSchema),
  make_literal_schema_from i ts = Some s ->
  List.length s = List.length ts /\
  (forall j t, nth_error ts j = Some t -> exists ct, codec_type_enum t = Some ct /\
     nth_error s j = Some {| col_name := "col_" ++ nat_to_string (i + j); col_type := ct |}) /\
  NoDup (map col_name s) /\
  (forall c, In c s -> exists j, i <= j /\ col_name c = ("col_" ++ nat_to_string j)%string).
Proof.
  induction ts as [| t ts IH]; intros i s Hs; simpl in Hs.
  - injection Hs as <-. split; [reflexivity |]. split; [| split].
    + intros [|j] u Hu; discriminate.
    + constructor.
    + intros c [].
  - destruct (codec_type_enum t) as [ct |] eqn:Ect; [| discriminate].
    destruct (make_literal_schema_from (S i) ts) as [cols |] eqn:Ecols; [| discriminate].
    injection Hs as <-.
    destruct (IH (S i) cols Ecols) as (Hlen & Hnth & Hnd & Hin).
    split; [simpl; congruence |]. split; [| split].
    + intros [| j] u Hu; simpl in Hu |- *.
      * injection Hu as <-. exists ct. rewrite Nat.add_0_r. auto.
      * rewrite Nat.add_succ_r. exact (Hnth j u Hu).
    + simpl. constructor; [| exact Hnd].
      intros Hm. apply in_map_iff in Hm as (c & Hc & Hcin).
      destruct (Hin c Hcin) as (j & Hj & Hcj).
      rewrite Hcj in Hc. apply col_name_inj in Hc. lia.
    + intros c [<- | Hc]; [exists i; split; [lia | reflexivity] |].
      destruct (Hin c Hc) as (j & Hj & Hcj). exists j. split; [lia | exact Hcj].
Qed.

Lemma wf_node_mk (b : DataType) (gs : list (option TypeNode)) (fl : list bool) :
  wf_node (TypeNodeMk b gs fl) =
  Nat.eqb (List.length gs) (List.length fl) &&
  forallb (fun g => match g with Some x => wf_node x | None => true end) gs.
Proof.
  simpl. f_equal. induction gs as [| [x |] r IH]; simpl; [reflexivity | | exact IH].
  rewrite IH. reflexivity.
Qed.

(* ------------------------------------------------------------------------ *)
(** ** Extra properties *)

(** [LiteralToArgTypesSignature] composes: the signature of two non-empty
    argument lists put end to end is the two signatures joined by [", "]. *)
Theorem LiteralToArgTypesSignature_app (ts1 ts2 : list Literal) :
  ts1 <> [] -> ts2 <> [] ->
  LiteralToArgTypesSignature (ts1 ++ ts2)%list =
  (LiteralToArgTypesSignature ts1 ++ ", " ++ LiteralToArgTypesSignature ts2)%string.
Proof.
  intros H1 H2. unfold LiteralToArgTypesSignature.
  rewrite !join_names_spec, map_app.
  apply join_spec_app; intros He; apply map_eq_nil in He; contradiction.
Qed.

(** A signature determines the list of argument type names: no
    [DataTypeTrait<T>::to_string()] is empty or contains a comma. *)
Theorem signature_determines_names (ts1 ts2 : list Literal) :
  LiteralToArgTypesSignature ts1 = LiteralToArgTypesSignature ts2 ->
  map to_string ts1 = map to_string ts2.
Proof. exact (signature_names ts1 ts2). Qed.

(** For argument lists without [Tuple], [LiteralTypedRow] and [Opaque]
    types, two signatures are equal exactly when the argument types are equal once
    every [Nullable] wrapper is removed. *)
Theorem flat_signature_iff (ts1 ts2 : list Literal) :
  forallb flat ts1 = true -> forallb flat ts2 = true ->
  (LiteralToArgTypesSignature ts1 = LiteralToArgTypesSignature ts2 <->
   map erase_lit ts1 = map erase_lit ts2).
Proof.
  intros H1 H2. split.
  - intros H. exact (map_flat_names ts1 ts2 H1 H2 (signature_names ts1 ts2 H)).
  - intros H. unfold LiteralToArgTypesSignature.
    rewrite <- (map_to_string_erase_flat ts1 H1), <- (map_to_string_erase_flat ts2 H2), H.
    reflexivity.
Qed.

(** Tuple names are not injective: [Tuple<Tuple<A, B>>] and
    [Tuple<Tuple<A>, B>] have different type nodes, also with nullability
    erased, but the same name, so argument lists that contain them get the
    same signature. *)
Theorem nested_tuple_names_collide (a b : Literal) :
  erased_args [LTuple [LTuple [a; b]]] <> erased_args [LTuple [LTuple [a]; b]] /\
  LiteralToArgTypesSignature [LTuple [LTuple [a; b]]] =
  LiteralToArgTypesSignature [LTuple [LTuple [a]; b]].
Proof.
  split.
  - intros H.
    apply (f_equal (fun l => match l with
                             | [Some (TypeNodeMk _ gs _)] => List.length gs
                             | _ => O end)) in H.
    simpl in H. discriminate.
  - unfold LiteralToArgTypesSignature. cbn [map to_string].
    rewrite !join_names_spec. cbn [map join_spec].
    rewrite !str_app_assoc. reflexivity.
Qed.

(** [Opaque<T>] names tell sizes apart: the names
    ["opaque<" + std::to_string(sizeof(T)) + ">"] of two opaque types are
    the same exactly when their [sizeof] values are equal. *)
Theorem opaque_names_distinct (T1 T2 : CType) :
  to_string (LOpaque T1) = to_string (LOpaque T2) <-> sizeof_ctype T1 = sizeof_ctype T2.
Proof.
  split; [apply opaque_name_inj |].
  intros H. cbn [to_string]. rewrite H. reflexivity.
Qed.

(** [MakeLiteralSchema<T...>()], when it instantiates, has one column per
    argument; column [j] is named ["col_" + std::to_string(j)] and has the
    [codec_type_enum] of argument [j]; the column names are distinct. *)
Theorem MakeLiteralSchema_columns (ts : list Literal) (s : CodecSchema) :
  MakeLiteralSchema ts = Some s ->
  List.length s = List.length ts /\
  (forall j t, nth_error ts j = Some t -> exists ct, codec_type_enum t = Some ct /\
     nth_error s j = Some {| col_name := "col_" ++ nat_to_string j; col_type := ct |}) /\
  NoDup (map col_name s).
Proof.
  intros Hs. destruct (make_schema_from_shape ts 0 s Hs) as (Hlen & Hnth & Hnd & _).
  repeat split; auto.
Qed.

(** Every type node built by [to_type_node] is well formed: each node in it
    has exactly one [generics_nullable_] flag per generic slot. *)
Theorem to_type_node_wf (t : Literal) (n : TypeNode) :
  to_type_node t = Some n -> wf_node n = true.
Proof.
  revert n.
  induction t as [| | | | | | | | | | u IH | k | u IH | ts IH | ts IH]
    using Literal_ind'; intros n Hn; simpl in Hn;
    try (injection Hn as <-; reflexivity); try discriminate.
  - injection Hn as <-. rewrite wf_node_mk. simpl.
    destruct (to_type_node u) as [x |] eqn:Ex; [| reflexivity].
    rewrite (IH x eq_refl). reflexivity.
  - exact (IH n Hn).
  - injection Hn as <-. rewrite wf_node_mk, !length_map, Nat.eqb_refl. simpl.
    apply forallb_forall. intros g Hg. apply in_map_iff in Hg as (u & <- & Hu).
    rewrite Forall_forall in IH.
    destruct (to_type_node u) as [x |] eqn:Ex; [exact (IH u Hu x Ex) | reflexivity].
  - destruct (MakeLiteralSchema ts); [injection Hn as <-; reflexivity | discriminate].
Qed.

(** For an instantiable type, [to_type_node] and [to_type_enum] agree: the
    node is [nullptr] exactly when the type has no enum, which happens only
    for [AnyArg] under [Nullable] wrappers, and otherwise the node's base
    type is the enum. *)
Theorem type_node_matches_enum (t : Literal) :
  instantiable t = true ->
  (to_type_node t = None <-> strip_nullable t = LAnyArg) /\
  (to_type_enum t = None <-> strip_nullable t = LAnyArg) /\
  (forall n, to_type_node t = Some n -> to_type_enum t = Some (node_type_enum n)).
Proof.
  induction t; simpl; intros Hi;
    try (split; [split; congruence | split; [split; congruence |]];
         intros n0 Hn; injection Hn as <-; reflexivity).
  - split; [split; auto | split; [split; auto |]]. discriminate.
  - exact (IHt Hi).
  - destruct (make_literal_schema_some ts 0 Hi) as [sch Hs].
    unfold MakeLiteralSchema. rewrite Hs.
    split; [split; congruence | split; [split; congruence |]].
    intros n0 Hn; injection Hn as <-; reflexivity.
Qed.

(** [operator==] on [Nullable<T>] is an equivalence relation whenever the
    [operator==] of [T] is one. *)
Theorem nullable_eqb_equivalence {T} (eqT : T -> T -> bool) :
  (forall a, eqT a a = true) ->
  (forall a b, eqT a b = eqT b a) ->
  (forall a b c, eqT a b = true -> eqT b c = true -> eqT a c = true) ->
  (forall x, nullable_eqb eqT x x = true) /\
  (forall x y, nullable_eqb eqT x y = nullable_eqb eqT y x) /\
  (forall x y z, nullable_eqb eqT x y = true -> nullable_eqb eqT y z = true ->
                 nullable_eqb eqT x z = true).
Proof.
  intros Hr Hs Ht. unfold nullable_eqb, is_null, value.
  split; [| split].
  - intros [d [|]]; simpl; [reflexivity | apply Hr].
  - intros [d1 [|]] [d2 [|]]; simpl; auto.
  - intros [d1 [|]] [d2 [|]] [d3 [|]]; simpl; try discriminate; auto.
    apply Ht.
Qed.

(** For every literal type, [minimum_value() <= zero_value() <= maximum_value()]
    where defined, the minimum lies strictly below the maximum, and a type
    with a minimum or a maximum also has a zero value. *)
Theorem constants_ordered (t : Literal) :
  (forall lo z, minimum_value t = Some lo -> zero_value t = Some z -> val_le lo z = true) /\
  (forall z hi, zero_value t = Some z -> maximum_value t = Some hi -> val_le z hi = true) /\
  (forall lo hi, minimum_value t = Some lo -> maximum_value t = Some hi ->
     val_le lo hi = true /\ val_le hi lo = false) /\
  (minimum_value t <> None \/ maximum_value t <> None -> zero_value t <> None).
Proof.
  destruct t; simpl;
    repeat split; intros;
    repeat match goal with
           | H : Some _ = Some _ |- _ => injection H as <-
           | H : None = Some _ |- _ => discriminate H
           end;
    try (vm_compute; reflexivity); try discriminate;
    try (destruct H as [H | H]; exfalso; apply H; reflexivity).
Qed.

(** ** Witnesses of the extra properties *)

Lemma LiteralToArgTypesSignature_app_witness :
  LiteralToArgTypesSignature ([LInt32; LNullable LStringRef] ++ [LTuple [LBool; LOpaque (CStruct 0 16)]])%list =
  "int32, string, tuple_bool_opaque<16>".
Proof.
  rewrite (LiteralToArgTypesSignature_app [LInt32; LNullable LStringRef] [LTuple [LBool; LOpaque (CStruct 0 16)]])
    by discriminate.
  reflexivity.
Defined.

Lemma signature_determines_names_witness :
  LiteralToArgTypesSignature [LNullable LInt64; LListRef LDate] =
  LiteralToArgTypesSignature [LInt64; LListRef (LNullable LDate)] /\
  map to_string [LNullable LInt64; LListRef LDate] = map to_string [LInt64; LListRef (LNullable LDate)].
Proof.
  assert (H : LiteralToArgTypesSignature [LNullable LInt64; LListRef LDate] =
              LiteralToArgTypesSignature [LInt64; LListRef (LNullable LDate)]) by reflexivity.
  exact (conj H (signature_determines_names _ _ H)).
Defined.

Lemma flat_signature_iff_witness :
  forallb flat [LNullable LInt32; LListRef (LNullable LStringRef); LDate] = true /\
  forallb flat [LInt32; LListRef LStringRef; LDate] = true /\
  LiteralToArgTypesSignature [LNullable LInt32; LListRef (LNullable LStringRef); LDate] =
  LiteralToArgTypesSignature [LInt32; LListRef LStringRef; LDate].
Proof.
  assert (H1 : forallb flat [LNullable LInt32; LListRef (LNullable LStringRef); LDate] = true)
    by reflexivity.
  assert (H2 : forallb flat [LInt32; LListRef LStringRef; LDate] = true) by reflexivity.
  split; [exact H1 | split; [exact H2 |]].
  apply (proj2 (flat_signature_iff _ _ H1 H2)). reflexivity.
Defined.

Lemma MakeLiteralSchema_columns_witness :
  MakeLiteralSchema [LInt32; LStringRef; LTimestamp] =
    Some [ {| col_name := "col_0"; col_type := tInt32 |};
           {| col_name := "col_1"; col_type := tVarchar |};
           {| col_name := "col_2"; col_type := tTimestamp |} ] /\
  NoDup (map col_name [ {| col_name := "col_0"; col_type := tInt32 |};
                        {| col_name := "col_1"; col_type := tVarchar |};
                        {| col_name := "col_2"; col_type := tTimestamp |} ]).
Proof.
  assert (H : MakeLiteralSchema [LInt32; LStringRef; LTimestamp] =
    Some [ {| col_name := "col_0"; col_type := tInt32 |};
           {| col_name := "col_1"; col_type := tVarchar |};
           {| col_name := "col_2"; col_type := tTimestamp |} ]) by reflexivity.
  exact (conj H (proj2 (proj2 (MakeLiteralSchema_columns _ _ H)))).
Defined.

Lemma to_type_node_wf_witness :
  to_type_node (LTuple [LListRef (LNullable LInt32); LNullable LBool]) =
    Some (TypeNodeMk kTuple
            [Some (TypeNodeMk kList [Some (TypeNodeMk kInt32 [] [])] [true]);
             Some (TypeNodeMk kBool [] [])] [false; true]) /\
  wf_node (TypeNodeMk kTuple
            [Some (TypeNodeMk kList [Some (TypeNodeMk kInt32 [] [])] [true]);
             Some (TypeNodeMk kBool [] [])] [false; true]) = true.
Proof.
  assert (H : to_type_node (LTuple [LListRef (LNullable LInt32); LNullable LBool]) =
    Some (TypeNodeMk kTuple
            [Some (TypeNodeMk kList [Some (TypeNodeMk kInt32 [] [])] [true]);
             Some (TypeNodeMk kBool [] [])] [false; true])) by reflexivity.
  exact (conj H (to_type_node_wf _ _ H)).
Defined.

Lemma type_node_matches_enum_witness :
  instantiable (LNullable (LNullable LAnyArg)) = true /\
  to_type_node (LNullable (LNullable LAnyArg)) = None /\
  to_type_enum (LLiteralTypedRow [LInt16; LDouble]) = Some kRow.
Proof.
  assert (H1 : instantiable (LNullable (LNullable LAnyArg)) = true) by reflexivity.
  assert (H2 : instantiable (LLiteralTypedRow [LInt16; LDouble]) = true) by reflexivity.
  split; [exact H1 | split].
  - apply (proj1 (type_node_matches_enum _ H1)). reflexivity.
  - apply (proj2 (proj2 (type_node_matches_enum _ H2))
             (RowTypeNode [[ {| col_name := "col_0"; col_type := tInt16 |};
                             {| col_name := "col_1"; col_type := tDouble |} ]])).
    reflexivity.
Defined.

Lemma nullable_eqb_equivalence_witness :
  nullable_eqb Bool.eqb (Build_Nullable true true) (Build_Nullable false true) = true /\
  nullable_eqb Bool.eqb (Build_Nullable false true) (Build_Nullable true true) = true /\
  nullable_eqb Bool.eqb (Build_Nullable true true) (Build_Nullable true true) = true.
Proof.
  destruct (nullable_eqb_equivalence Bool.eqb
              ltac:(intros []; reflexivity)
              ltac:(intros [] []; reflexivity)
              ltac:(intros [] [] [] H1 H2; simpl in *; congruence)) as (Hr & Hs & Ht).
  assert (H : nullable_eqb Bool.eqb (Build_Nullable true true) (Build_Nullable false true) = true)
    by reflexivity.
  split; [exact H | split; [rewrite Hs; exact H | apply Hr]].
Defined.

Lemma constants_ordered_witness :
  minimum_value LFloat = Some (VNum (- FLT_MAX)) /\ zero_value LFloat = Some (VNum 0) /\
  maximum_value LFloat = Some (VNum FLT_MAX) /\
  val_le (VNum (- FLT_MAX)) (VNum 0) = true /\ val_le (VNum 0) (VNum FLT_MAX) = true.
Proof.
  destruct (constants_ordered LFloat) as (H1 & H2 & _).
  split; [reflexivity | split; [reflexivity | split; [reflexivity |]]].
  split; [apply H1 | apply H2]; reflexivity.
Defined.

